(** * The matching core of the clinic chat bot (web_app.py)

    A shallow embedding of [normalize_text], [find_in_knowledge_base],
    [call_yandex_gpt], [get_suggestions_by_topic] and the [/chat] handler,
    with the properties of the matching core proved about them.

    Python strings are sequences of Unicode code points: [str] is a list
    of code points.  The knowledge base is a [dict] iterated in insertion
    order, hence an association list; [suggestionMap] is only ever read by
    key, hence a [gmap]; the word sets of the fourth tier are [gset]s. *)

From Stdlib Require Import QArith Qround Ascii String.
From stdpp Require Import base numbers list gmap strings.

Local Open Scope N_scope.

(** ** Strings *)

Abbreviation str := (list N).

(** Code points of a UTF-8 encoded literal; used only to write the string
    constants of the source and the examples. *)
Fixpoint utf8_aux (need : nat) (acc : N) (bs : list N) : str :=
  match bs with
  | [] => []
  | b :: rest =>
      match need with
      | O =>
          if b <? 0x80 then b :: utf8_aux 0 0 rest
          else if b <? 0xE0 then utf8_aux 1 (b - 0xC0) rest
          else if b <? 0xF0 then utf8_aux 2 (b - 0xE0) rest
          else utf8_aux 3 (b - 0xF0) rest
      | S n =>
          let acc' := acc * 64 + (b - 0x80) in
          match n with
          | O => acc' :: utf8_aux 0 0 rest
          | S _ => utf8_aux n acc' rest
          end
      end
  end.

Definition utf8 (s : string) : str :=
  utf8_aux 0 0 (List.map N_of_ascii (String.list_ascii_of_string s)).

(** ** The interpreter's character database

    [str.lower], [\w] and the final-sigma rule read the Unicode character
    database of the interpreter, which is not part of the repository: it is
    a parameter of the model. *)
Class UnicodeData := {
  (** [_PyUnicode_ToLowerFull]: the full lower-case mapping of one code
      point (one to three code points). *)
  to_lower_full : N → str;
  (** [Py_UNICODE_ISALNUM]: alphabetic, decimal, digit or numeric. *)
  is_alnum : N → bool;
  (** [_PyUnicode_IsCased] and [_PyUnicode_IsCaseIgnorable]. *)
  is_cased : N → bool;
  is_case_ignorable : N → bool
}.

(** [Py_UNICODE_ISSPACE], the class behind [\s], [str.strip] and
    [str.split]: a fixed list of code points. *)
Definition is_space (c : N) : bool :=
  (9 <=? c) && (c <=? 13) || (28 <=? c) && (c <=? 32) ||
  (c =? 0x85) || (c =? 0xA0) || (c =? 0x1680) ||
  (0x2000 <=? c) && (c <=? 0x200A) ||
  (c =? 0x2028) || (c =? 0x2029) || (c =? 0x202F) ||
  (c =? 0x205F) || (c =? 0x3000).

Definition SPACE : N := 32.
Definition UNDERSCORE : N := 95.
Definition CAPITAL_SIGMA : N := 0x3A3.
Definition SMALL_FINAL_SIGMA : N := 0x3C2.
Definition SMALL_SIGMA : N := 0x3C3.

Fixpoint drop_while {A} (p : A → bool) (l : list A) : list A :=
  match l with
  | [] => []
  | x :: rest => if p x then drop_while p rest else l
  end.

(** [s.lstrip()], [s.rstrip()] and [s.strip()] without argument. *)
Definition str_lstrip (s : str) : str := drop_while is_space s.

Fixpoint str_rstrip (s : str) : str :=
  match s with
  | [] => []
  | c :: rest =>
      match str_rstrip rest with
      | [] => if is_space c then [] else [c]
      | kept => c :: kept
      end
  end.

Definition str_strip (s : str) : str := str_rstrip (str_lstrip s).

(** [a in b] on strings. *)
Fixpoint starts_with (a b : str) : bool :=
  match a, b with
  | [], _ => true
  | _ :: _, [] => false
  | x :: a', y :: b' => (x =? y) && starts_with a' b'
  end.

Fixpoint str_in (a b : str) : bool :=
  starts_with a b ||
  match b with
  | [] => false
  | _ :: b' => str_in a b'
  end.

(** [s.split()] without argument: the maximal runs of non-space
    characters.  [cur] is the run being read, reversed. *)
Fixpoint split_from (cur : str) (s : str) : list str :=
  match s with
  | [] => match cur with [] => [] | _ => [rev cur] end
  | c :: rest =>
      if is_space c then
        match cur with
        | [] => split_from [] rest
        | _ => rev cur :: split_from [] rest
        end
      else split_from (c :: cur) rest
  end.

Definition str_split (s : str) : list str := split_from [] s.

(** [re.sub(r'\s+', ' ', text)]: every maximal run of white space becomes
    one space.  [in_run] tells that the previous character was white
    space, already replaced. *)
Fixpoint sub_spaces (in_run : bool) (s : str) : str :=
  match s with
  | [] => []
  | c :: rest =>
      if is_space c then
        if in_run then sub_spaces true rest
        else SPACE :: sub_spaces true rest
      else c :: sub_spaces false rest
  end.

Section Normalizer.
Context {U : UnicodeData}.

(** [handle_capital_sigma]: U+03A3 lowers to the final form when a cased
    letter precedes it and none follows, case-ignorable characters
    skipped on both sides. *)
Definition final_sigma (before_rev after : str) : bool :=
  match drop_while is_case_ignorable before_rev with
  | [] => false
  | c :: _ =>
      is_cased c &&
      match drop_while is_case_ignorable after with
      | [] => true
      | d :: _ => negb (is_cased d)
      end
  end.

(** [s.lower()]: [before_rev] is the part of the string already read. *)
Fixpoint lower_from (before_rev s : str) : str :=
  match s with
  | [] => []
  | c :: rest =>
      (if c =? CAPITAL_SIGMA
       then [if final_sigma before_rev rest
             then SMALL_FINAL_SIGMA else SMALL_SIGMA]
       else to_lower_full c)
      ++ lower_from (c :: before_rev) rest
  end.

Definition str_lower (s : str) : str := lower_from [] s.

(** [\w]: alphanumeric or the underscore. *)
Definition is_word (c : N) : bool := is_alnum c || (c =? UNDERSCORE).

(** [re.sub(r'[^\w\s]', '', text)]. *)
Definition strip_punctuation (s : str) : str :=
  List.filter (λ c, is_word c || is_space c) s.

(** [normalize_text(text)]; [None] is Python's [None]. *)
Definition normalize_text (text : option str) : str :=
  match text with
  | None | Some [] => []
  | Some text =>
      let text := str_lower text in
      let text := strip_punctuation text in
      let text := sub_spaces false text in
      str_strip text
  end.
End Normalizer.

(** ** Knowledge matcher *)

(** [KNOWLEDGE_BASE]: a [dict] from question to answer, read in its
    iteration order.  Keys of a [dict] are distinct. *)
Abbreviation knowledge := (list (str * str)).

Definition dict_wf (kb : knowledge) : Prop := NoDup kb.*1.

(** [question in KNOWLEDGE_BASE] and [KNOWLEDGE_BASE[question]]. *)
Fixpoint dict_get (kb : knowledge) (question : str) : option str :=
  match kb with
  | [] => None
  | (key, value) :: rest =>
      if bool_decide (key = question) then Some value
      else dict_get rest question
  end.

(** [for key, value in KNOWLEDGE_BASE.items(): if cond: return value]. *)
Fixpoint first_value (cond : str → bool) (items : knowledge) : option str :=
  match items with
  | [] => None
  | (key, value) :: rest =>
      if cond key then Some value else first_value cond rest
  end.

(** Truth value of an optional string: [None] and [""] are false. *)
Definition truthy (v : option str) : bool :=
  match v with
  | Some (_ :: _) => true
  | _ => false
  end.

(** [max(a, b)]: the second argument only when it is greater. *)
Definition py_max (a b : Q) : Q := if Qle_bool b a then a else b.

Definition Q_of_nat (n : nat) : Q := inject_Z (Z.of_nat n).

(** [score >= max(1, len(question_words) * 0.5)]; the product by [0.5]
    is exact in binary floating point, so rationals compute it. *)
Definition meets_threshold (score question_word_count : nat) : bool :=
  Qle_bool (py_max 1 (Q_of_nat question_word_count * (1 # 2)))
           (Q_of_nat score).

Section Matcher.
Context {U : UnicodeData}.

(** [set(text.split())]. *)
Definition word_set (text : str) : gset str := list_to_set (str_split text).

Definition key_score (question_words : gset str) (key : str) : nat :=
  let normalized_key := normalize_text (Some key) in
  let key_words := word_set normalized_key in
  let common_words := question_words ∩ key_words in
  size common_words.

(** The loop of the fourth tier, with its two variables. *)
Fixpoint overlap_loop (question_words : gset str) (items : knowledge)
    (best_match : option str) (best_score : nat) : option str * nat :=
  match items with
  | [] => (best_match, best_score)
  | (key, value) :: rest =>
      let score := key_score question_words key in
      if (best_score <? score)%nat
         && meets_threshold score (size question_words)
      then overlap_loop question_words rest (Some value) score
      else overlap_loop question_words rest best_match best_score
  end.

(** The fourth tier: lines 392-414 of the source. *)
Definition word_overlap (kb : knowledge) (normalized_question : str)
    : option str :=
  let question_words := word_set normalized_question in
  if (1 <? size question_words)%nat then
    let best_match := (overlap_loop question_words kb None 0%nat).1 in
    if truthy best_match then best_match else None
  else None.

Definition same_normalized (normalized_question key : str) : bool :=
  bool_decide (normalize_text (Some key) = normalized_question).

Definition contains_either (normalized_question key : str) : bool :=
  let normalized_key := normalize_text (Some key) in
  str_in normalized_key normalized_question
  || str_in normalized_question normalized_key.

(** [find_in_knowledge_base(question)]; [None] is NotFound. *)
Definition find_in_knowledge_base (kb : knowledge) (question : str)
    : option str :=
  let normalized_question := normalize_text (Some question) in
  match dict_get kb question with
  | Some value => Some value
  | None =>
      match first_value (same_normalized normalized_question) kb with
      | Some value => Some value
      | None =>
          match first_value (contains_either normalized_question) kb with
          | Some value => Some value
          | None => word_overlap kb normalized_question
          end
      end
  end.
End Matcher.

(** ** Exceptions *)

(** The exceptions that reach an [except] clause of the modelled code,
    split the way the clauses split them, with their message. *)
Inductive exn :=
  | RequestException (msg : str)
  | OtherException (msg : str).

Definition exn_str (e : exn) : str :=
  match e with
  | RequestException msg | OtherException msg => msg
  end.

Inductive result (A : Type) :=
  | Return (a : A)
  | Raise (e : exn).
Arguments Return {A} a.
Arguments Raise {A} e.

#[global] Instance result_ret : MRet result := λ A a, Return a.
#[global] Instance result_bind : MBind result := λ A B f r,
  match r with
  | Return a => f a
  | Raise e => Raise e
  end.

(** ** External generator *)

(** What one [requests.post] of [call_yandex_gpt] meets: a response with
    its status code and what reading the answer text out of its body
    gives, or an exception raised by the call. *)
Inductive reply_body :=
  | Text (text : str)
  | BodyRaises (e : exn).

Inductive post_outcome :=
  | Response (status_code : Z) (body : reply_body)
  | PostRaises (e : exn).

(** The remote service: the outcome of each attempt for a prompt. *)
Abbreviation network := (str → nat → post_outcome).

Definition AUTH_ERROR : str :=
  utf8 "❌ Ошибка авторизации. Проверьте API-ключ.".
Definition PARAM_ERROR : str :=
  utf8 "❌ Ошибка параметров. Проверьте folder_id.".
Definition NO_ANSWER : str :=
  utf8 "❌ Не удалось получить ответ. Попробуйте позже.".

(** [for attempt in range(3): try: ... except RequestException: ...]. *)
Fixpoint gpt_attempts (post : nat → post_outcome) (attempts : list nat)
    : result str :=
  match attempts with
  | [] => Return NO_ANSWER
  | attempt :: rest =>
      match post attempt with
      | Response status_code body =>
          if (status_code =? 200)%Z then
            match body with
            | Text text => Return text
            | BodyRaises (RequestException _) => gpt_attempts post rest
            | BodyRaises e => Raise e
            end
          else if (status_code =? 401)%Z then Return AUTH_ERROR
          else if (status_code =? 400)%Z then Return PARAM_ERROR
          else gpt_attempts post rest
      | PostRaises (RequestException _) => gpt_attempts post rest
      | PostRaises e => Raise e
      end
  end.

(** [call_yandex_gpt(prompt)]; the handlers never pass a history. *)
Definition call_yandex_gpt (net : network) (prompt : str) : result str :=
  gpt_attempts (net prompt) (seq 0 3).

(** The failures of one attempt after which the service is asked again:
    a connection error, raised by the call or while the body is read,
    and a status other than 200, 401 and 400. *)
Definition retried (outcome : post_outcome) : bool :=
  match outcome with
  | PostRaises (RequestException _) => true
  | PostRaises _ => false
  | Response status_code body =>
      if (status_code =? 200)%Z then
        match body with
        | BodyRaises (RequestException _) => true
        | _ => false
        end
      else negb (status_code =? 401)%Z && negb (status_code =? 400)%Z
  end.

(** ** Menu, suggestions and the chat handler *)

(** A menu button; of its keys the handler reads ["question"] and
    ["suggestion_topic"], the latter through [.get]. *)
Record MenuItem := {
  question : str;
  suggestion_topic : option str
}.

Record Suggestion := {
  text : str;
  trigger : str;   (* key ["question"] *)
  answer : str
}.

(** [{"text": s["text"], "question": s["question"]}]. *)
Definition quick_reply (s : Suggestion) : str * str := (text s, trigger s).

Record Reply := {
  response : str;
  source : str;
  suggestions : list (str * str)
}.

Record LogEntry := {
  log_question : str;
  log_answer : str;
  log_source : str
}.

(** [log_interaction]: appends one entry; it swallows its own failures. *)
Definition log_interaction (log : list LogEntry) (q a s : str)
    : list LogEntry :=
  log ++ [{| log_question := q; log_answer := a; log_source := s |}].

Definition ASK_PROMPT : str := utf8 "Пожалуйста, задайте вопрос.".
Definition CHAT_ERROR : str := utf8 "❌ Произошла ошибка".
Definition CHAT_ERROR_LOG : str := utf8 "❌ Произошла ошибка: ".
Definition SRC_KNOWLEDGE : str := utf8 "knowledge_base".
Definition SRC_SUGGESTION : str := utf8 "suggestion_map".
Definition SRC_GPT : str := utf8 "yandex_gpt".
Definition SRC_ERROR : str := utf8 "error".
Definition DEFAULT_TOPIC : str := utf8 "default".

Section Router.
Context {U : UnicodeData}.
(** The globals [MENU_CACHE] (through [load_menu]), [suggestionMap] and
    [KNOWLEDGE_BASE], and the remote service. *)
Context (menu_items : list MenuItem).
Context (suggestionMap : gmap str (list Suggestion)).
Context (KNOWLEDGE_BASE : knowledge).
Context (net : network).

(** Step 1 of [chat]: the topic of the first menu item whose question
    normalizes like the user's. *)
Fixpoint find_menu_topic (items : list MenuItem) (q : str) : option str :=
  match items with
  | [] => None
  | item :: rest =>
      if bool_decide (normalize_text (Some (question item))
                      = normalize_text (Some q))
      then suggestion_topic item
      else find_menu_topic rest q
  end.

(** Step 4 of [chat]: the answer of the first suggestion of the topic
    whose question normalizes like the user's. *)
Fixpoint find_suggestion_answer (topic_suggestions : list Suggestion)
    (q : str) : option str :=
  match topic_suggestions with
  | [] => None
  | s :: rest =>
      if bool_decide (normalize_text (Some (trigger s))
                      = normalize_text (Some q))
      then Some (answer s)
      else find_suggestion_answer rest q
  end.

(** The body of the [try] of [chat], after the empty-question test. *)
Definition chat_body (log : list LogEntry) (q : str)
    : result (Reply * list LogEntry) :=
  match find_menu_topic menu_items q with
  | None | Some [] =>
      let suggestions :=
        quick_reply <$> default [] (suggestionMap !! DEFAULT_TOPIC) in
      response ←
        match find_in_knowledge_base KNOWLEDGE_BASE q with
        | Some ((_ :: _) as found) => Return found
        | _ => call_yandex_gpt net q
        end;
      let source :=
        if truthy (find_in_knowledge_base KNOWLEDGE_BASE q)
        then SRC_KNOWLEDGE else SRC_GPT in
      mret ({| response := response; source := source;
               suggestions := suggestions |},
            log_interaction log q response source)
  | Some menu_topic =>
      let topic_suggestions := default [] (suggestionMap !! menu_topic) in
      let suggestions := quick_reply <$> topic_suggestions in
      let response := find_suggestion_answer topic_suggestions q in
      let source := SRC_SUGGESTION in
      let '(response, source) :=
        if truthy response then (response, source)
        else (find_in_knowledge_base KNOWLEDGE_BASE q, SRC_KNOWLEDGE) in
      '(response, source) ←
        match response with
        | Some ((_ :: _) as found) => Return (found, source)
        | _ => r ← call_yandex_gpt net q; mret (r, SRC_GPT)
        end;
      mret ({| response := response; source := source;
               suggestions := suggestions |},
            log_interaction log q response source)
  end.

(** [chat()]: the message of the request, stripped, and the handler's
    [try] with its catch-all [except]. *)
Definition chat (log : list LogEntry) (message : str)
    : Reply * list LogEntry :=
  let q := str_strip message in
  match q with
  | [] =>
      ({| response := ASK_PROMPT; source := SRC_ERROR;
          suggestions := [] |}, log)
  | _ =>
      match chat_body log q with
      | Return out => out
      | Raise e =>
          ({| response := CHAT_ERROR; source := SRC_ERROR;
              suggestions := [] |},
           log_interaction log q (CHAT_ERROR_LOG ++ exn_str e) SRC_ERROR)
      end
  end.

(** [get_suggestions_by_topic(topic)]: no step of its [try] can raise on
    a string. *)
Definition get_suggestions_by_topic (topic : str) : list Suggestion :=
  let suggestions := default [] (suggestionMap !! str_lower topic) in
  match suggestions with
  | [] => default [] (suggestionMap !! DEFAULT_TOPIC)
  | _ => suggestions
  end.
End Router.

(** ** The normalizer in the words of the specification

    Lower-case; keep letters, digits and white space; collapse each run of
    white space to one space; trim.  Compared with [normalize_text]
    below. *)
Definition spec_normalize {U : UnicodeData} (text : option str) : str :=
  match text with
  | None => []
  | Some t =>
      let lowered := str_lower t in
      let kept := List.filter (λ c, is_alnum c || is_space c) lowered in
      str_strip (sub_spaces false kept)
  end.

(** ** Rows of the character database

    The facts about the interpreter's database that the proofs use: a
    lower-cased code point is its own lower case, the two small sigmas
    are lower case, and the Basic Latin block is as in ASCII. *)
Definition in_range (lo hi c : N) : bool := (lo <=? c) && (c <=? hi).

Definition ascii_lower (c : N) : N :=
  if in_range 0x41 0x5A c then c + 32 else c.

Definition ascii_alnum (c : N) : bool :=
  in_range 0x30 0x39 c || in_range 0x41 0x5A c || in_range 0x61 0x7A c.

Definition ascii_str (s : str) : Prop := Forall (λ c, c < 128) s.

Record unicode_ok (U : UnicodeData) : Prop := {
  lower_fixed : ∀ c d, d ∈ to_lower_full c → to_lower_full d = [d];
  lower_capital_sigma : to_lower_full CAPITAL_SIGMA = [SMALL_SIGMA];
  lower_final_sigma : to_lower_full SMALL_FINAL_SIGMA = [SMALL_FINAL_SIGMA];
  ascii_lower_row : ∀ c, c < 128 → to_lower_full c = [ascii_lower c];
  ascii_alnum_row : ∀ c, c < 128 → is_alnum c = ascii_alnum c
}.

(** The rows of the database for Basic Latin, dotted capital I, Greek and
    Cyrillic, enough to run the examples; other code points are left as
    uncased symbols. *)
Definition excerpt_lower (c : N) : str :=
  if in_range 0x41 0x5A c then [c + 32]
  else if c =? 0x130 then [0x69; 0x307]
  else if in_range 0x391 0x3A1 c || in_range 0x3A3 0x3AB c then [c + 32]
  else if in_range 0x400 0x40F c then [c + 80]
  else if in_range 0x410 0x42F c then [c + 32]
  else [c].

Definition excerpt_letter (c : N) : bool :=
  in_range 0x41 0x5A c || in_range 0x61 0x7A c || (c =? 0x130)
  || in_range 0x391 0x3A1 c || in_range 0x3A3 0x3AB c
  || in_range 0x3B1 0x3CB c || in_range 0x400 0x45F c.

Definition excerpt_alnum (c : N) : bool :=
  in_range 0x30 0x39 c || excerpt_letter c.

Definition excerpt_case_ignorable (c : N) : bool :=
  (c =? 0x27) || (c =? 0x2E) || (c =? 0x3A) || (c =? 0x5E) || (c =? 0x60)
  || (c =? 0x307).

#[global] Instance excerpt : UnicodeData := {
  to_lower_full := excerpt_lower;
  is_alnum := excerpt_alnum;
  is_cased := excerpt_letter;
  is_case_ignorable := excerpt_case_ignorable
}.

(** ** When the router turns to the external generator

    The condition under which [chat_body] reaches [call_yandex_gpt]: no
    answer that counts as true came from the suggestions of the topic or
    from the knowledge base. *)
Definition escalates {U : UnicodeData} (menu_items : list MenuItem)
    (suggestionMap : gmap str (list Suggestion)) (kb : knowledge)
    (q : str) : bool :=
  match find_menu_topic menu_items q with
  | None | Some [] => negb (truthy (find_in_knowledge_base kb q))
  | Some menu_topic =>
      negb (truthy (find_suggestion_answer
                      (default [] (suggestionMap !! menu_topic)) q))
      && negb (truthy (find_in_knowledge_base kb q))
  end.

(** The four values of [source] in the words of the specification. *)
Definition SPEC_SOURCES : list str :=
  [utf8 "knowledge_base"; utf8 "suggestion_map";
   utf8 "external_generator"; utf8 "error"].

(** ** Normal forms

    The shape of a normalized string: no white space at either end, and
    between two words exactly one space character. *)
Inductive tight : str → Prop :=
  | tight_last c : is_space c = false → tight [c]
  | tight_char c s : is_space c = false → tight s → tight (c :: s)
  | tight_gap c s : is_space c = false → tight s → tight (c :: SPACE :: s).

(** A code point that [str.lower] leaves alone. *)
Definition lowered {U : UnicodeData} (c : N) : Prop :=
  to_lower_full c = [c] ∧ c ≠ CAPITAL_SIGMA.

Definition kept {U : UnicodeData} (c : N) : Prop :=
  is_word c || is_space c = true.

(** ** Example data *)

(** A base where the raw question is a key and normalizes to another
    key. *)
Definition kb_greetings : knowledge :=
  [(utf8 "привет", utf8 "B"); (utf8 "Привет!", utf8 "A")].

(** Two keys that share two words with the question ["a b z"], neither
    containing it. *)
Definition kb_tie : knowledge :=
  [(utf8 "a b d", utf8 "x"); (utf8 "b a c", utf8 "y")].

(** A key that shares one word with the question ["a a a b"]. *)
Definition kb_repeated_word : knowledge := [(utf8 "b x", utf8 "ans")].

(** An entry with the empty answer, and a key of punctuation only. *)
Definition kb_empty_answer : knowledge := [(utf8 "a b", [])].
Definition kb_silent_greeting : knowledge := [(utf8 "привет", [])].
Definition kb_punctuation : knowledge := [(utf8 "!!!", utf8 "?")].

(** A menu button whose topic has no entry in the suggestions, and the
    suggestions with the default topic alone. *)
Definition menu_vr : list MenuItem :=
  [{| question := utf8 "vr"; suggestion_topic := Some (utf8 "vr") |}].

Definition menu_vr_cyrillic : list MenuItem :=
  [{| question := utf8 "вр"; suggestion_topic := Some (utf8 "vr") |}].


Definition sug_prices : Suggestion :=
  {| text := utf8 "Цены"; trigger := utf8 "цены";
     answer := utf8 "Цены зависят от выбранного аттракциона." |}.

Definition topics_default_only : gmap str (list Suggestion) :=
  {[ DEFAULT_TOPIC := [sug_prices] ]}.

Definition sug_games : Suggestion :=
  {| text := utf8 "Игры"; trigger := utf8 "vr"; answer := utf8 "VR-игры!" |}.

Definition topics_vr : gmap str (list Suggestion) :=
  {[ utf8 "vr" := [sug_games]; DEFAULT_TOPIC := [sug_prices] ]}.

(** The remote service refusing the key, answering, and answering with a
    body that has no ["result"]. *)
Definition net_unauthorized : network := λ _ _, Response 401 (Text []).
Definition net_answers (t : str) : network := λ _ _, Response 200 (Text t).
Definition net_malformed : network :=
  λ _ _, Response 200 (BodyRaises (OtherException (utf8 "'result'"))).

(** A time-out, then an overloaded service, then a refused folder. *)
Definition net_flaky : network := λ _ attempt,
  match attempt with
  | 0%nat => PostRaises (RequestException (utf8 "timed out"))
  | 1%nat => Response 503 (Text [])
  | _ => Response 400 (Text [])
  end.

(** No answer in three attempts. *)
Definition net_down : network :=
  λ _ _, PostRaises (RequestException (utf8 "timed out")).

(** ** The other question handlers: [/ask] and [/voice-ask] *)

Definition ASK_ERROR : str := utf8 "❌ Ошибка: ".
Definition VOICE_PROMPT : str :=
  utf8 "Голосовое сообщение не распознано. Попробуйте еще раз.".
Definition VOICE_ERROR : str := utf8 "❌ Ошибка обработки запроса: ".
Definition VOICE_TAG : str := utf8 "[VOICE] ".

Section Askers.
Context {U : UnicodeData}.
Context (KNOWLEDGE_BASE : knowledge).
Context (net : network).

(** [ask()]: the answer and the log.  The lookup, then the generator inside
    its own [try]. *)
Definition ask (log : list LogEntry) (message : str) : str * list LogEntry :=
  let q := str_strip message in
  match q with
  | [] => (ASK_PROMPT, log)
  | _ =>
      let response := find_in_knowledge_base KNOWLEDGE_BASE q in
      let source := SRC_KNOWLEDGE in
      let '(response, source) :=
        match response with
        | Some ((_ :: _) as found) => (found, source)
        | _ =>
            match call_yandex_gpt net q with
            | Return r => (r, SRC_GPT)
            | Raise e => (ASK_ERROR ++ exn_str e, SRC_ERROR)
            end
        end in
      (response, log_interaction log q response source)
  end.

(** [voice_ask()]: as [ask], on the question stripped and lower-cased, and
    logged under a tag.  Nothing in the body of its outer [try] raises. *)
Definition voice_ask (log : list LogEntry) (message : str)
    : str * list LogEntry :=
  let q := str_lower (str_strip message) in
  match q with
  | [] => (VOICE_PROMPT, log)
  | _ =>
      let response := find_in_knowledge_base KNOWLEDGE_BASE q in
      let source := SRC_KNOWLEDGE in
      let '(response, source) :=
        match response with
        | Some ((_ :: _) as found) => (found, source)
        | _ =>
            match call_yandex_gpt net q with
            | Return r => (r, SRC_GPT)
            | Raise e => (VOICE_ERROR ++ exn_str e, SRC_ERROR)
            end
        end in
      (response, log_interaction log (VOICE_TAG ++ q) response source)
  end.
End Askers.

(** ** Editing the knowledge base

    The functions below also write the base to PostgreSQL or to a file;
    those writes change no variable of the program and swallow their own
    failures, so only their success flag, where the function returns it,
    is part of the model. *)

(** [d[key] = value]: in place for a key of the dictionary, at the end of
    the iteration order for a new key. *)
Fixpoint dict_set (kb : knowledge) (key value : str) : knowledge :=
  match kb with
  | [] => [(key, value)]
  | (k, v) :: rest =>
      if bool_decide (k = key) then (k, value) :: rest
      else (k, v) :: dict_set rest key value
  end.

(** [del d[key]]. *)
Fixpoint dict_del (kb : knowledge) (key : str) : knowledge :=
  match kb with
  | [] => []
  | (k, v) :: rest =>
      if bool_decide (k = key) then rest else (k, v) :: dict_del rest key
  end.

Section KnowledgeAdmin.
Context {U : UnicodeData}.

(** [add_knowledge_item(question, answer)]: the new base and the value
    returned. *)
Definition add_knowledge_item (kb : knowledge) (question answer : str)
    : knowledge * bool :=
  (dict_set kb (str_lower (str_strip question)) (str_strip answer), true).

(** [update_knowledge_item(old_question, new_question, answer)]. *)
Definition update_knowledge_item (kb : knowledge)
    (old_question new_question answer : str) : knowledge * bool :=
  let kb :=
    match dict_get kb old_question with
    | Some _ => dict_del kb old_question
    | None => kb
    end in
  (dict_set kb (str_lower (str_strip new_question)) (str_strip answer), true).

(** [delete_knowledge_item(question)]; [write_ok] tells whether the file
    could be written. *)
Definition delete_knowledge_item (write_ok : bool) (kb : knowledge)
    (question : str) : knowledge * bool :=
  match dict_get kb question with
  | Some _ => (dict_del kb question, write_ok)
  | None => (kb, false)
  end.

(** [search_knowledge(query)] without a database connection. *)
Fixpoint search_knowledge (kb : knowledge) (query : str) : knowledge :=
  match kb with
  | [] => []
  | (question, answer) :: rest =>
      if str_in (str_lower query) (str_lower question)
      then (question, answer) :: search_knowledge rest query
      else search_knowledge rest query
  end.

(** [import_knowledge()]: the items of the JSON object of the request, in
    order, with strings for values. *)
Inductive import_reply :=
  | ImportForbidden
  | ImportInvalid
  | ImportDone (success_count error_count : nat).

(** [if question and answer]. *)
Definition importable (entry : str * str) : bool :=
  match entry with
  | (_ :: _, _ :: _) => true
  | _ => false
  end.

Fixpoint import_loop (kb : knowledge) (items : list (str * str))
    (success_count error_count : nat) : knowledge * nat * nat :=
  match items with
  | [] => (kb, success_count, error_count)
  | (question, answer) :: rest =>
      match question, answer with
      | _ :: _, _ :: _ =>
          let '(kb', added) := add_knowledge_item kb question answer in
          if added
          then import_loop kb' rest (S success_count) error_count
          else import_loop kb' rest success_count (S error_count)
      | _, _ => import_loop kb rest success_count error_count
      end
  end.

Definition import_knowledge (admin_logged_in : bool) (kb : knowledge)
    (data : list (str * str)) : knowledge * import_reply :=
  if negb admin_logged_in then (kb, ImportForbidden)
  else
    match data with
    | [] => (kb, ImportInvalid)
    | _ =>
        let '(kb', success_count, error_count) :=
          import_loop kb data 0 0 in
        (kb', ImportDone success_count error_count)
    end.
End KnowledgeAdmin.

(** ** Editing the menu

    A menu button as the application writes it, with its six keys.  The
    handlers work on the list that [load_menu] returns, the cached menu,
    and change it in place. *)
Record MenuButton := {
  admin_text : str;
  display_text : str;
  button_question : str;
  category : str;
  price_info : str;
  button_topic : str
}.

(** What [chat] reads of a button. *)
Definition menu_item_of (b : MenuButton) : MenuItem :=
  {| question := button_question b;
     suggestion_topic := Some (button_topic b) |}.

(** The fields of the form of a request; [None] for a field that was not
    sent. *)
Record MenuForm := {
  form_admin_text : option str;
  form_display_text : option str;
  form_question : option str;
  form_category : option str;
  form_price_info : option str;
  form_suggestion_topic : option str
}.

(** The outcome of an admin request: refused for want of a session,
    refused with a message, done, or ended by an uncaught exception. *)
Inductive admin_reply :=
  | Forbidden
  | Refused (error : str)
  | Accepted
  | Crashed.

Definition ERR_REQUIRED : str := utf8 "Все поля обязательны".
Definition ERR_DUP_TEXT : str :=
  utf8 "Кнопка с таким текстом для админки уже существует".
Definition ERR_DUP_QUESTION : str :=
  utf8 "Кнопка с таким вопросом уже существует".
Definition ERR_INDEX : str := utf8 "Неверный индекс кнопки".
Definition ERR_INDEX_FLASH : str := utf8 "❌ Неверный индекс кнопки".
Definition DEFAULT_CATEGORY : str := utf8 "attractions".

Definition is_empty (s : str) : bool :=
  match s with
  | [] => true
  | _ => false
  end.

Section MenuAdmin.
Context {U : UnicodeData}.

(** The button that [add_menu_item] and [edit_menu_item] build from the
    form. *)
Definition button_of_form (form : MenuForm) : MenuButton :=
  {| admin_text := str_strip (default [] (form_admin_text form));
     display_text := str_strip (default [] (form_display_text form));
     button_question :=
       str_lower (str_strip (default [] (form_question form)));
     category := default DEFAULT_CATEGORY (form_category form);
     price_info := default [] (form_price_info form);
     button_topic := default DEFAULT_TOPIC (form_suggestion_topic form) |}.

Definition missing_field (b : MenuButton) : bool :=
  is_empty (admin_text b) || is_empty (display_text b)
  || is_empty (button_question b).

(** [add_menu_item()]. *)
Definition add_menu_item (admin_logged_in : bool) (form : MenuForm)
    (menu_items : list MenuButton) : list MenuButton * admin_reply :=
  if negb admin_logged_in then (menu_items, Forbidden)
  else
    let new_item := button_of_form form in
    if missing_field new_item then (menu_items, Refused ERR_REQUIRED)
    else if existsb (λ item, bool_decide (admin_text item
                                          = admin_text new_item)) menu_items
    then (menu_items, Refused ERR_DUP_TEXT)
    else if existsb (λ item, bool_decide (button_question item
                                          = button_question new_item))
              menu_items
    then (menu_items, Refused ERR_DUP_QUESTION)
    else (menu_items ++ [new_item], Accepted).

(** The duplicate check of [edit_menu_item]: the items in order from
    position [i], the edited one skipped; the first clash ends it. *)
Fixpoint edit_clash (i : nat) (items : list MenuButton) (index : nat)
    (new_item : MenuButton) : option str :=
  match items with
  | [] => None
  | item :: rest =>
      if (i =? index)%nat then edit_clash (S i) rest index new_item
      else if bool_decide (admin_text item = admin_text new_item)
      then Some ERR_DUP_TEXT
      else if bool_decide (button_question item = button_question new_item)
      then Some ERR_DUP_QUESTION
      else edit_clash (S i) rest index new_item
  end.

(** [edit_menu_item(index)]; the route only matches a natural number. *)
Definition edit_menu_item (admin_logged_in : bool) (index : nat)
    (form : MenuForm) (menu_items : list MenuButton)
    : list MenuButton * admin_reply :=
  if negb admin_logged_in then (menu_items, Forbidden)
  else if negb (index <? length menu_items)%nat
  then (menu_items, Refused ERR_INDEX)
  else
    let new_item := button_of_form form in
    if missing_field new_item then (menu_items, Refused ERR_REQUIRED)
    else
      match edit_clash 0 menu_items index new_item with
      | Some error => (menu_items, Refused error)
      | None => (<[index := new_item]> menu_items, Accepted)
      end.

(** [delete_menu_item(index)]. *)
Definition delete_menu_item (admin_logged_in : bool) (index : nat)
    (menu_items : list MenuButton) : list MenuButton * admin_reply :=
  if negb admin_logged_in then (menu_items, Forbidden)
  else if (index <? length menu_items)%nat
  then (delete index menu_items, Accepted)
  else (menu_items, Refused ERR_INDEX_FLASH).

(** [get_menu_items_by_category(category)]. *)
Definition get_menu_items_by_category (menu_items : list MenuButton)
    (wanted : str) : list MenuButton :=
  List.filter (λ item, bool_decide (category item = wanted)) menu_items.
End MenuAdmin.

(** Questions and admin texts are each distinct over the menu. *)
Definition menu_wf (menu_items : list MenuButton) : Prop :=
  NoDup (button_question <$> menu_items) ∧ NoDup (admin_text <$> menu_items).

(** ** Editing the suggestions *)

Record SuggestionForm := {
  form_topic : option str;
  form_text : option str;
  form_trigger : option str;   (* field ["suggestion-question"] *)
  form_answer : option str
}.

Definition ERR_ALL_REQUIRED : str := utf8 "❌ Все поля обязательны".
Definition ERR_DUP_LABEL : str :=
  utf8 "❌ Подсказка с таким названием уже существует".
Definition ERR_DELETE : str := utf8 "❌ Ошибка удаления".
Definition ERR_NOT_FOUND : str := utf8 "❌ Подсказка не найдена".

(** Position of the first suggestion with a given label:
    [for i, suggestion in enumerate(...): if suggestion["text"] == text]. *)
Fixpoint label_index (label : str) (l : list Suggestion) : option nat :=
  match l with
  | [] => None
  | s :: rest =>
      if bool_decide (text s = label) then Some 0%nat
      else S <$> label_index label rest
  end.

Section SuggestionAdmin.
Context {U : UnicodeData}.
(** [urllib.parse.unquote], which the handlers apply to the label taken
    from the address. *)
Context (unquote : str → str).

(** The four fields as [add_suggestion] and [edit_suggestion] clean them;
    a field that was not sent makes [.strip()] raise. *)
Definition cleaned_form (form : SuggestionForm)
    : option (str * Suggestion) :=
  match form_topic form, form_text form, form_trigger form,
        form_answer form with
  | Some topic, Some label, Some trig, Some ans =>
      Some (str_lower (str_strip topic),
            {| text := str_strip label;
               trigger := str_lower (str_strip trig);
               answer := str_strip ans |})
  | _, _, _, _ => None
  end.

Definition blank_field (topic : str) (s : Suggestion) : bool :=
  is_empty topic || is_empty (text s) || is_empty (trigger s)
  || is_empty (answer s).

(** [if topic not in suggestionMap: suggestionMap[topic] = []]. *)
Definition with_topic (sm : gmap str (list Suggestion)) (topic : str)
    : gmap str (list Suggestion) :=
  match sm !! topic with
  | Some _ => sm
  | None => <[topic := []]> sm
  end.

(** [add_suggestion()]. *)
Definition add_suggestion (admin_logged_in : bool) (form : SuggestionForm)
    (sm : gmap str (list Suggestion))
    : gmap str (list Suggestion) * admin_reply :=
  if negb admin_logged_in then (sm, Forbidden)
  else
    match cleaned_form form with
    | None => (sm, Crashed)
    | Some (topic, new_suggestion) =>
        if blank_field topic new_suggestion
        then (sm, Refused ERR_ALL_REQUIRED)
        else
          let sm := with_topic sm topic in
          let current := default [] (sm !! topic) in
          if existsb (λ s, bool_decide (text s = text new_suggestion))
               current
          then (sm, Refused ERR_DUP_LABEL)
          else (<[topic := current ++ [new_suggestion]]> sm, Accepted)
    end.

(** [delete_suggestion(topic, text)]. *)
Definition delete_suggestion (admin_logged_in : bool) (topic label : str)
    (sm : gmap str (list Suggestion))
    : gmap str (list Suggestion) * admin_reply :=
  if negb admin_logged_in then (sm, Forbidden)
  else
    let label := unquote label in
    match sm !! topic with
    | Some current =>
        (<[topic := List.filter
                      (λ s, negb (bool_decide (text s = label))) current]> sm,
         Accepted)
    | None => (sm, Refused ERR_DELETE)
    end.

(** [edit_suggestion(topic, text)], a POST request. *)
Definition edit_suggestion (admin_logged_in : bool) (topic label : str)
    (form : SuggestionForm) (sm : gmap str (list Suggestion))
    : gmap str (list Suggestion) * admin_reply :=
  if negb admin_logged_in then (sm, Forbidden)
  else
    let label := unquote label in
    match cleaned_form form with
    | None => (sm, Crashed)
    | Some (new_topic, new_suggestion) =>
        if blank_field new_topic new_suggestion
        then (sm, Refused ERR_ALL_REQUIRED)
        else
          match sm !! topic with
          | None => (sm, Refused ERR_NOT_FOUND)
          | Some current =>
              match label_index label current with
              | None => (sm, Refused ERR_NOT_FOUND)
              | Some i =>
                  if bool_decide (new_topic = topic)
                  then (<[topic := <[i := new_suggestion]> current]> sm,
                        Accepted)
                  else
                    let sm := <[topic := delete i current]> sm in
                    let sm := with_topic sm new_topic in
                    let target := default [] (sm !! new_topic) in
                    (<[new_topic := target ++ [new_suggestion]]> sm,
                     Accepted)
              end
          end
    end.
End SuggestionAdmin.

(** Within each topic the labels of the suggestions are distinct. *)
Definition labels_unique (sm : gmap str (list Suggestion)) : Prop :=
  ∀ topic l, sm !! topic = Some l → NoDup (text <$> l).

(** The number of suggestions over all topics. *)
Definition suggestion_count (sm : gmap str (list Suggestion)) : nat :=
  sum_list_with (λ entry, length entry.2) (map_to_list sm).

(** ** Menu categories

    The categories live in a file only: a flat JSON object from key to
    name.  [FileUnreadable] is a file that exists and cannot be read as
    such an object. *)
Inductive categories_file :=
  | FileAbsent
  | FileUnreadable
  | FileContent (flat : gmap str str).

(** The dictionary that [load_menu_categories] returns and
    [save_menu_categories] takes; [None] for a key that the dictionary
    does not have. *)
Record Categories := {
  system_categories : option (gmap str str);
  custom_categories : option (gmap str str)
}.

Definition SYSTEM_CATEGORIES : list str :=
  [utf8 "attractions"; utf8 "events"; utf8 "services"; utf8 "info"].

Definition SYSTEM_NAMES : gmap str str :=
  <[utf8 "attractions" := utf8 "🎪 Аттракционы"]>
  (<[utf8 "events" := utf8 "🎉 Мероприятия"]>
  (<[utf8 "services" := utf8 "🛠️ Услуги"]>
  (<[utf8 "info" := utf8 "ℹ️ Информация"]> ∅))).

Definition ERR_BOTH_REQUIRED : str :=
  utf8 "❌ Оба поля обязательны для заполнения".
Definition ERR_KEY_FORMAT : str :=
  utf8 "❌ Ключ категории может содержать только латинские буквы в нижнем регистре, цифры и подчеркивание".
Definition ERR_CATEGORY_EXISTS : str :=
  utf8 "❌ Категория с таким ключом уже существует".
Definition ERR_SYSTEM_CATEGORY : str :=
  utf8 "❌ Нельзя удалить системную категорию".
Definition ERR_CATEGORY_IN_USE : str :=
  utf8 "❌ Нельзя удалить категорию, к которой привязаны кнопки меню".
Definition ERR_CATEGORY_NOT_FOUND : str := utf8 "❌ Категория не найдена".

(** [save_menu_categories(categories_dict)]: the flat object is the
    system categories updated with the custom ones; [write_ok] tells
    whether the file can be written, and a failure is swallowed. *)
Definition save_menu_categories (write_ok : bool) (c : Categories)
    (file : categories_file) : categories_file :=
  let flat : gmap str str := ∅ in
  let flat :=
    match system_categories c with
    | Some system => system ∪ flat
    | None => flat
    end in
  let flat :=
    match custom_categories c with
    | Some custom => custom ∪ flat
    | None => flat
    end in
  if write_ok then FileContent flat else file.

(** [load_menu_categories()]: the categories and the file afterwards.
    Without a file it saves the flat dictionary of the defaults, which has
    neither of the two keys that [save_menu_categories] reads. *)
Definition load_menu_categories (write_ok : bool) (file : categories_file)
    : Categories * categories_file :=
  match file with
  | FileContent flat =>
      ({| system_categories := Some SYSTEM_NAMES;
          custom_categories :=
            Some (filter (λ entry, entry.1 ∉ SYSTEM_CATEGORIES) flat) |},
       file)
  | FileUnreadable =>
      ({| system_categories := Some SYSTEM_NAMES;
          custom_categories := Some ∅ |}, file)
  | FileAbsent =>
      ({| system_categories := Some SYSTEM_NAMES;
          custom_categories := Some ∅ |},
       save_menu_categories write_ok
         {| system_categories := None; custom_categories := None |} file)
  end.

(** [re.match(r'^[a-z0-9_]+$', key)]; [$] also matches before a final
    line feed. *)
Definition slug_char (c : N) : bool :=
  in_range 0x61 0x7A c || in_range 0x30 0x39 c || (c =? UNDERSCORE).

Definition slug_run (s : str) : bool := negb (is_empty s) && forallb slug_char s.

Definition matches_slug (key : str) : bool :=
  slug_run key
  || match rev key with
     | 10 :: body_rev => slug_run (rev body_rev)
     | _ => false
     end.

Section CategoryAdmin.
Context {U : UnicodeData}.

(** [add_menu_category()]. *)
Definition add_menu_category (admin_logged_in write_ok : bool)
    (form_key form_name : option str) (file : categories_file)
    : categories_file * admin_reply :=
  if negb admin_logged_in then (file, Forbidden)
  else
    let key := str_lower (str_strip (default [] form_key)) in
    let name := str_strip (default [] form_name) in
    if is_empty key || is_empty name then (file, Refused ERR_BOTH_REQUIRED)
    else if negb (matches_slug key) then (file, Refused ERR_KEY_FORMAT)
    else
      let '(categories, file) := load_menu_categories write_ok file in
      let system := default ∅ (system_categories categories) in
      let custom := default ∅ (custom_categories categories) in
      if bool_decide (is_Some (system !! key))
         || bool_decide (is_Some (custom !! key))
      then (file, Refused ERR_CATEGORY_EXISTS)
      else
        let categories :=
          {| system_categories := system_categories categories;
             custom_categories := Some (<[key := name]> custom) |} in
        (save_menu_categories write_ok categories file, Accepted).

(** [delete_menu_category(key)]. *)
Definition delete_menu_category (admin_logged_in write_ok : bool)
    (key : str) (menu_items : list MenuButton) (file : categories_file)
    : categories_file * admin_reply :=
  if negb admin_logged_in then (file, Forbidden)
  else if bool_decide (key ∈ SYSTEM_CATEGORIES)
  then (file, Refused ERR_SYSTEM_CATEGORY)
  else
    let '(categories, file) := load_menu_categories write_ok file in
    let custom := default ∅ (custom_categories categories) in
    if bool_decide (is_Some (custom !! key)) then
      if existsb (λ item, bool_decide (category item = key)) menu_items
      then (file, Refused ERR_CATEGORY_IN_USE)
      else
        let categories :=
          {| system_categories := system_categories categories;
             custom_categories := Some (delete key custom) |} in
        (save_menu_categories write_ok categories file, Accepted)
    else (file, Refused ERR_CATEGORY_NOT_FOUND).
End CategoryAdmin.

(** Custom categories never sit under a system key. *)
Definition custom_ok (custom : gmap str str) : Prop :=
  ∀ k, is_Some (custom !! k) → k ∉ SYSTEM_CATEGORIES.

(** What [load_menu_categories] can return: the built-in system
    categories, and custom categories under other keys. *)
Definition categories_wf (c : Categories) : Prop :=
  system_categories c = Some SYSTEM_NAMES
  ∧ ∃ custom, custom_categories c = Some custom ∧ custom_ok custom.

(** ** Loading the menu and the suggestions

    A JSON file of the application: missing, there but not readable as
    JSON, or holding a value. *)
Inductive stored (A : Type) :=
  | NoFile
  | BadFile
  | FileWith (content : A).
Arguments NoFile {A}.
Arguments BadFile {A}.
Arguments FileWith {A} content.

(** The menu that [load_menu] creates when there is no menu file. *)
Definition DEFAULT_MENU : list MenuButton :=
  [ {| admin_text := utf8 "VR-зоны";
       display_text := utf8 "🎮 VR-зоны — от 300 ₽";
       button_question := utf8 "vr"; category := utf8 "attractions";
       price_info := utf8 "от 300 ₽"; button_topic := utf8 "vr" |};
    {| admin_text := utf8 "Батуты";
       display_text := utf8 "🏀 Батутный центр — от 500 ₽";
       button_question := utf8 "батуты"; category := utf8 "attractions";
       price_info := utf8 "от 500 ₽"; button_topic := utf8 "батуты" |};
    {| admin_text := utf8 "Нерф";
       display_text := utf8 "🔫 Нерф-арена — от 2500 ₽";
       button_question := utf8 "нерф"; category := utf8 "attractions";
       price_info := utf8 "от 2500 ₽"; button_topic := utf8 "default" |};
    {| admin_text := utf8 "День рождения";
       display_text := utf8 "🎉 День рождения";
       button_question := utf8 "день рождения"; category := utf8 "events";
       price_info := []; button_topic := utf8 "default" |};
    {| admin_text := utf8 "Выпускные";
       display_text := utf8 "🎓 Выпускные";
       button_question := utf8 "выпускные"; category := utf8 "events";
       price_info := []; button_topic := utf8 "default" |};
    {| admin_text := utf8 "Мероприятия";
       display_text := utf8 "🎪 Мероприятия";
       button_question := utf8 "мероприятия"; category := utf8 "events";
       price_info := []; button_topic := utf8 "default" |} ].

(** [load_menu()]: the menu, the cache and the file afterwards; [None]
    when creating the default file raises, which nothing catches. *)
Definition load_menu (write_ok : bool) (MENU_CACHE : option (list MenuButton))
    (file : stored (list MenuButton))
    : option (list MenuButton * option (list MenuButton)
              * stored (list MenuButton)) :=
  match MENU_CACHE with
  | Some cached => Some (cached, MENU_CACHE, file)
  | None =>
      match file with
      | FileWith menu_items => Some (menu_items, Some menu_items, file)
      | BadFile => Some ([], None, file)
      | NoFile =>
          if write_ok
          then Some (DEFAULT_MENU, Some DEFAULT_MENU, FileWith DEFAULT_MENU)
          else None
      end
  end.

(** The suggestions that [load_suggestion_map] creates when there is no
    file, or none that can be read. *)
Definition DEFAULT_SUGGESTIONS : gmap str (list Suggestion) :=
  <[utf8 "vr" :=
      [ {| text := utf8 "Игры"; trigger := utf8 "игры в vr";
           answer :=
             utf8 "У нас есть различные VR-игры: экшены, гонки, головоломки! 🎮" |};
        {| text := utf8 "Цены"; trigger := utf8 "стоимость vr";
           answer := utf8 "VR-сеанс стоит от 300 рублей за 30 минут! 💰" |};
        {| text := utf8 "Забронировать"; trigger := utf8 "забронировать vr";
           answer :=
             utf8 "Чтобы забронировать VR, перейдите на страницу бронирования! 📅" |};
        {| text := utf8 "Правила";
           trigger := utf8 "правила безопасности в vr";
           answer :=
             utf8 "В VR-зоне необходимо соблюдать технику безопасности! ⚠️" |} ]]>
  (<[utf8 "батуты" :=
      [ {| text := utf8 "Для деток?";
           trigger := utf8 "можно ли на батуты с маленькими детьми";
           answer :=
             utf8 "Да, у нас есть специальные батуты для детей от 3 лет! 👶" |};
        {| text := utf8 "Цены"; trigger := utf8 "стоимость батутов";
           answer := utf8 "Батутный центр - от 500 рублей за час! 🏀" |};
        {| text := utf8 "Забронировать";
           trigger := utf8 "забронировать батуты";
           answer :=
             utf8 "Забронируйте батуты через нашу систему бронирования! 🎯" |};
        {| text := utf8 "Аниматор";
           trigger := utf8 "есть ли аниматор на батуты";
           answer :=
             utf8 "Да, мы предоставляем услуги аниматора для детских праздников! 🎪" |} ]]>
  (<[utf8 "default" :=
      [ {| text := utf8 "Забронировать"; trigger := utf8 "хочу забронировать";
           answer :=
             utf8 "Перейдите на страницу бронирования для оформления заказа! 📋" |};
        {| text := utf8 "Цены"; trigger := utf8 "цены";
           answer :=
             utf8 "Цены зависят от выбранного аттракциона. Уточните у нашего менеджера! 💵" |} ]]>
   ∅)).

(** [load_suggestion_map()]: the new [suggestionMap] and the file
    afterwards; a failure to write the defaults is swallowed. *)
Definition load_suggestion_map (write_ok : bool)
    (file : stored (gmap str (list Suggestion)))
    : gmap str (list Suggestion) * stored (gmap str (list Suggestion)) :=
  match file with
  | FileWith suggestionMap => (suggestionMap, file)
  | _ =>
      (DEFAULT_SUGGESTIONS,
       if write_ok then FileWith DEFAULT_SUGGESTIONS else file)
  end.

(** Every topic that a menu button names, and the default topic, has at
    least one suggestion. *)
Definition topics_covered (menu_items : list MenuItem)
    (suggestionMap : gmap str (list Suggestion)) : Prop :=
  (∀ item topic, item ∈ menu_items → suggestion_topic item = Some topic →
                 topic ≠ [] → default [] (suggestionMap !! topic) ≠ [])
  ∧ default [] (suggestionMap !! DEFAULT_TOPIC) ≠ [].

(** ** Reading numbers aloud: the helpers of [text_to_speech]

    The helpers are nested functions of the handler.  Their arguments come
    from [int] applied to runs of decimal digits, so they are natural
    numbers. *)

(** [str(number)] for a natural number. *)
Fixpoint uint_str (d : Decimal.uint) : str :=
  match d with
  | Decimal.Nil => []
  | Decimal.D0 r => 0x30 :: uint_str r
  | Decimal.D1 r => 0x31 :: uint_str r
  | Decimal.D2 r => 0x32 :: uint_str r
  | Decimal.D3 r => 0x33 :: uint_str r
  | Decimal.D4 r => 0x34 :: uint_str r
  | Decimal.D5 r => 0x35 :: uint_str r
  | Decimal.D6 r => 0x36 :: uint_str r
  | Decimal.D7 r => 0x37 :: uint_str r
  | Decimal.D8 r => 0x38 :: uint_str r
  | Decimal.D9 r => 0x39 :: uint_str r
  end.

Definition str_of_N (n : N) : str := uint_str (N.to_uint n).

(** [d.get(key)] for a dictionary written with distinct integer keys. *)
Fixpoint table_get (d : list (N * str)) (key : N) : option str :=
  match d with
  | [] => None
  | (k, v) :: rest => if k =? key then Some v else table_get rest key
  end.

(** [sep.join(parts)]. *)
Fixpoint str_join (sep : str) (parts : list str) : str :=
  match parts with
  | [] => []
  | [part] => part
  | part :: rest => part ++ sep ++ str_join sep rest
  end.

(** The dictionary [numbers] of [convert_number_to_text]; the entry of 20
    ends in a Latin letter e. *)
Definition ordinal_numbers : list (N * str) :=
  [(1, utf8 "первое"); (2, utf8 "второе"); (3, utf8 "третье");
   (4, utf8 "четвертое"); (5, utf8 "пятое"); (6, utf8 "шестое");
   (7, utf8 "седьмое"); (8, utf8 "восьмое"); (9, utf8 "девятое");
   (10, utf8 "десятое"); (11, utf8 "одиннадцатое");
   (12, utf8 "двенадцатое"); (13, utf8 "тринадцатое");
   (14, utf8 "четырнадцатое"); (15, utf8 "пятнадцатое");
   (16, utf8 "шестнадцатое"); (17, utf8 "семнадцатое");
   (18, utf8 "восемнадцатое"); (19, utf8 "девятнадцатое");
   (20, utf8 "двадцатоe")].

(** The dictionary [days] of [convert_day_to_text]. *)
Definition days : list (N * str) :=
  [(1, utf8 "первое"); (2, utf8 "второе"); (3, utf8 "третье");
   (4, utf8 "четвертое"); (5, utf8 "пятое"); (6, utf8 "шестое");
   (7, utf8 "седьмое"); (8, utf8 "восьмое"); (9, utf8 "девятое");
   (10, utf8 "десятое"); (11, utf8 "одиннадцатое");
   (12, utf8 "двенадцатое"); (13, utf8 "тринадцатое");
   (14, utf8 "четырнадцатое"); (15, utf8 "пятнадцатое");
   (16, utf8 "шестнадцатое"); (17, utf8 "семнадцатое");
   (18, utf8 "восемнадцатое"); (19, utf8 "девятнадцатое");
   (20, utf8 "двадцатое"); (21, utf8 "двадцать первое");
   (22, utf8 "двадцать второе"); (23, utf8 "двадцать третье");
   (24, utf8 "двадцать четвертое"); (25, utf8 "двадцать пятое");
   (26, utf8 "двадцать шестое"); (27, utf8 "двадцать седьмое");
   (28, utf8 "двадцать восьмое"); (29, utf8 "двадцать девятое");
   (30, utf8 "тридцатое"); (31, utf8 "тридцать первое")].

(** The dictionary [digits] of [convert_single_digit]. *)
Definition digits : list (N * str) :=
  [(0, utf8 "ноль"); (1, utf8 "один"); (2, utf8 "два"); (3, utf8 "три");
   (4, utf8 "четыре"); (5, utf8 "пять"); (6, utf8 "шесть");
   (7, utf8 "семь"); (8, utf8 "восемь"); (9, utf8 "девять")].

(** The dictionary [numbers] of [convert_two_digit_number]. *)
Definition two_digit_numbers : list (N * str) :=
  [(10, utf8 "десять"); (11, utf8 "одиннадцать"); (12, utf8 "двенадцать");
   (13, utf8 "тринадцать"); (14, utf8 "четырнадцать");
   (15, utf8 "пятнадцать"); (16, utf8 "шестнадцать");
   (17, utf8 "семнадцать"); (18, utf8 "восемнадцать");
   (19, utf8 "девятнадцать"); (20, utf8 "двадцать"); (30, utf8 "тридцать");
   (40, utf8 "сорок"); (50, utf8 "пятьдесят"); (60, utf8 "шестьдесят");
   (70, utf8 "семьдесят"); (80, utf8 "восемьдесят"); (90, utf8 "девяносто")].

(** The list [months] of [replace_date]. *)
Definition months : list str :=
  [[]; utf8 "января"; utf8 "февраля"; utf8 "марта"; utf8 "апреля";
   utf8 "мая"; utf8 "июня"; utf8 "июля"; utf8 "августа"; utf8 "сентября";
   utf8 "октября"; utf8 "ноября"; utf8 "декабря"].

Definition convert_number_to_text (number : N) : str :=
  default (str_of_N number) (table_get ordinal_numbers number).

Definition convert_day_to_text (day : N) : str :=
  default (str_of_N day) (table_get days day).

Definition convert_single_digit (digit : N) : str :=
  default (str_of_N digit) (table_get digits digit).

Definition convert_two_digit_number (number : N) : str :=
  if number <? 10 then convert_single_digit number
  else
    match table_get two_digit_numbers number with
    | Some word => word
    | None =>
        let tens := (number / 10) * 10 in
        let units := number mod 10 in
        if units =? 0
        then default (str_of_N tens) (table_get two_digit_numbers tens)
        else default (str_of_N tens) (table_get two_digit_numbers tens)
             ++ [SPACE] ++ convert_single_digit units
    end.

(** [int(num)] for a string of the digits 0 to 9. *)
Definition int_of_digits (num : str) : N :=
  fold_left (λ value c, 10 * value + (c - 0x30)) num 0.

(** The body of the loop of [replace_phone_numbers]: how one run of
    digits is read. *)
Definition phone_group (num : str) : str :=
  if bool_decide (num = utf8 "00") then utf8 "ноль ноль"
  else if (length num =? 1)%nat
  then convert_single_digit (int_of_digits num)
  else if (length num =? 2)%nat
  then convert_two_digit_number (int_of_digits num)
  else str_join [SPACE]
         ((λ d, convert_single_digit (int_of_digits [d])) <$> num).

(** [replace_phone_numbers(match)], on the runs of digits that
    [re.findall(r'\d+', match.group())] finds in the match. *)
Definition replace_phone_numbers (numbers : list str) : str :=
  str_join [SPACE] (phone_group <$> numbers).

(** [replace_date(match)], on the three groups of the match read as
    integers; [month_text] and [year_text] are its local variables. *)
Definition month_text (month : N) : str :=
  if (1 <=? month) && (month <=? 12)
  then default [] (months !! N.to_nat month)
  else str_of_N month.

Definition year_text (year : N) : str :=
  if 2000 <=? year
  then if 2000 <? year
       then utf8 "две тысячи " ++ convert_number_to_text (year - 2000)
       else utf8 "двухтысячного"
  else str_of_N year.

Definition replace_date (day month year : N) : str :=
  convert_day_to_text day ++ [SPACE] ++ month_text month ++ [SPACE]
  ++ year_text year ++ utf8 " года".

(** A character 0 to 9, and a text that holds one. *)
Definition ascii_digit (c : N) : bool := in_range 0x30 0x39 c.
Definition has_digit (s : str) : bool := existsb ascii_digit s.

(** ** Example requests to the admin handlers *)

Definition form_laser : MenuForm :=
  {| form_admin_text := Some (utf8 " Лазертаг ");
     form_display_text := Some (utf8 "🔫 Лазертаг");
     form_question := Some (utf8 " Лазертаг ");
     form_category := None;
     form_price_info := None;
     form_suggestion_topic := Some (utf8 "vr") |}.

Definition form_hours : SuggestionForm :=
  {| form_topic := Some (utf8 " VR ");
     form_text := Some (utf8 "Часы");
     form_trigger := Some (utf8 "Часы работы");
     form_answer := Some (utf8 "С 10 до 22.") |}.

Definition sug_hours : Suggestion :=
  {| text := utf8 "Часы"; trigger := utf8 "часы работы";
     answer := utf8 "С 10 до 22." |}.

(** The same suggestion sent for another topic. *)
Definition form_hours_default : SuggestionForm :=
  {| form_topic := Some (utf8 "default");
     form_text := Some (utf8 "Часы");
     form_trigger := Some (utf8 "Часы работы");
     form_answer := Some (utf8 "С 10 до 22.") |}.

(** The runs of digits of the telephone number ["(495) 123 45 67"]. *)
Definition phone_runs : list str :=
  [utf8 "495"; utf8 "123"; utf8 "45"; utf8 "67"].

Definition file_kids : categories_file :=
  FileContent (<[utf8 "kids" := utf8 "Детям"]>
               (<[utf8 "attractions" := utf8 "Аттракционы"]> ∅)).

(* ====================================================================== *)
(** * Properties *)

Section NormalizerFacts.
Context {U : UnicodeData}.

Lemma tight_head s :
  tight s → ∃ c rest, s = c :: rest ∧ is_space c = false.
Proof. destruct 1; eauto. Qed.

Lemma sub_spaces_head b c rest :
  is_space c = false →
  sub_spaces b (c :: rest) = c :: sub_spaces false rest.
Proof. intros Hc. simpl. by rewrite Hc. Qed.

Lemma sub_spaces_tight s : tight s → sub_spaces false s = s.
Proof.
  induction 1 as [c Hc|c s Hc Hs IH|c s Hc Hs IH].
  - by rewrite sub_spaces_head.
  - by rewrite sub_spaces_head, IH.
  - rewrite sub_spaces_head by done. simpl.
    destruct (tight_head s Hs) as (d & rest & -> & Hd).
    rewrite sub_spaces_head by done.
    rewrite sub_spaces_head in IH by done. by rewrite IH.
Qed.

Lemma str_lstrip_tight s : tight s → str_lstrip s = s.
Proof.
  intros Hs. destruct (tight_head s Hs) as (c & rest & -> & Hc).
  unfold str_lstrip. simpl. by rewrite Hc.
Qed.

Lemma str_rstrip_tight s : tight s → str_rstrip s = s.
Proof.
  induction 1 as [c Hc|c s Hc Hs IH|c s Hc Hs IH].
  - simpl. by rewrite Hc.
  - simpl. rewrite IH. by destruct Hs.
  - change (str_rstrip (c :: SPACE :: s))
      with (match str_rstrip (SPACE :: s) with
            | [] => if is_space c then [] else [c]
            | r => c :: r
            end).
    assert (str_rstrip (SPACE :: s) = SPACE :: s) as ->; [|done].
    simpl. rewrite IH. by destruct Hs.
Qed.

Lemma str_strip_tight s : tight s → str_strip s = s.
Proof.
  intros Hs. unfold str_strip.
  by rewrite str_lstrip_tight, str_rstrip_tight.
Qed.

(** What is left of a string once its runs of white space are replaced
    and its end is trimmed. *)
Lemma str_rstrip_sub_spaces t b :
  let r := str_rstrip (sub_spaces b t) in
  r = [] ∨ tight r ∨ (b = false ∧ ∃ s, r = SPACE :: s ∧ tight s).
Proof.
  revert b. induction t as [|c rest IH]; intros b; simpl; [by left|].
  destruct (is_space c) eqn:Hc.
  - destruct b.
    + destruct (IH true) as [H|[H|[? _]]]; auto; done.
    + simpl. destruct (IH true) as [H|[H|[? _]]]; [| |done].
      * simpl in H. rewrite H. by left.
      * simpl in H. right; right. split; [done|].
        destruct (str_rstrip (sub_spaces true rest)) eqn:E;
          [by inversion H|]. eauto.
  - simpl. destruct (IH false) as [H|[H|[_ (s & H & Hs)]]]; simpl in H.
    + rewrite H, Hc. right; left. by constructor.
    + right; left.
      destruct (str_rstrip (sub_spaces false rest)) eqn:E;
        [by inversion H|]. by apply tight_char.
    + rewrite H. right; left. by apply tight_gap.
Qed.

Lemma str_lstrip_sub_spaces t b :
  str_lstrip (sub_spaces b t) = sub_spaces false (str_lstrip t).
Proof.
  revert b. unfold str_lstrip.
  induction t as [|c rest IH]; intros b; [done|].
  simpl. destruct (is_space c) eqn:Hc.
  - destruct b; [apply IH|]. simpl. apply IH.
  - simpl. by rewrite Hc.
Qed.

Lemma str_lstrip_head t :
  str_lstrip t = [] ∨
  ∃ c rest, str_lstrip t = c :: rest ∧ is_space c = false.
Proof.
  unfold str_lstrip. induction t as [|c rest IH]; [by left|].
  simpl. destruct (is_space c) eqn:Hc; [done|]. right. eauto.
Qed.

Lemma strip_sub_spaces_tight t :
  let r := str_strip (sub_spaces false t) in r = [] ∨ tight r.
Proof.
  simpl. unfold str_strip. rewrite str_lstrip_sub_spaces.
  destruct (str_lstrip_head t) as [->|(c & rest & -> & Hc)]; [by left|].
  rewrite sub_spaces_head by done.
  pose proof (str_rstrip_sub_spaces rest false) as Hr. simpl in Hr.
  simpl. destruct Hr as [H|[H|[_ (s & H & Hs)]]].
  - rewrite H, Hc. right. by constructor.
  - right. destruct (str_rstrip (sub_spaces false rest)) eqn:E;
      [by inversion H|]. by apply tight_char.
  - rewrite H. right. by apply tight_gap.
Qed.
End NormalizerFacts.

Section CharacterFacts.
Context {U : UnicodeData}.

Lemma Forall_drop_while {A} (P : A → Prop) p (l : list A) :
  Forall P l → Forall P (drop_while p l).
Proof.
  induction 1 as [|x l Hx Hl IH]; simpl; [done|].
  destruct (p x); [done|by constructor].
Qed.

Lemma Forall_str_rstrip (P : N → Prop) s :
  Forall P s → Forall P (str_rstrip s).
Proof.
  induction 1 as [|c s Hc Hs IH]; simpl; [done|].
  destruct (str_rstrip s);
    [destruct (is_space c); by repeat constructor|by constructor].
Qed.

Lemma Forall_str_strip (P : N → Prop) s :
  Forall P s → Forall P (str_strip s).
Proof. intros. by apply Forall_str_rstrip, Forall_drop_while. Qed.

Lemma Forall_sub_spaces (P : N → Prop) b s :
  P SPACE → Forall P s → Forall P (sub_spaces b s).
Proof.
  intros Hsp Hs. revert b.
  induction Hs as [|c s Hc Hs IH]; intros b; simpl; [done|].
  destruct (is_space c); [destruct b|]; by repeat constructor.
Qed.

Lemma Forall_strip_punctuation (P : N → Prop) s :
  Forall P s → Forall (λ c, P c ∧ kept c) (strip_punctuation s).
Proof.
  unfold strip_punctuation, kept.
  induction 1 as [|c s Hc Hs IH]; simpl; [done|].
  destruct (is_word c || is_space c) eqn:E; by repeat constructor.
Qed.

Lemma strip_punctuation_kept s :
  Forall kept s → strip_punctuation s = s.
Proof.
  unfold strip_punctuation, kept.
  induction 1 as [|c s Hc Hs IH]; simpl; [done|]. by rewrite Hc, IH.
Qed.

Lemma lower_from_lowered before s :
  Forall lowered s → lower_from before s = s.
Proof.
  intros Hs. revert before.
  induction Hs as [|c s [Hc Hne] Hs IH]; intros before; simpl; [done|].
  apply N.eqb_neq in Hne. by rewrite Hne, Hc, IH.
Qed.

Context (OK : unicode_ok U).

Lemma lowered_image c d : d ∈ to_lower_full c → lowered d.
Proof.
  intros Hd. pose proof (lower_fixed U OK c d Hd) as Hfix.
  split; [done|]. intros ->.
  rewrite (lower_capital_sigma U OK) in Hfix. done.
Qed.

Lemma lowered_small_sigma : lowered SMALL_SIGMA.
Proof.
  apply (lowered_image CAPITAL_SIGMA).
  rewrite (lower_capital_sigma U OK). by left.
Qed.

Lemma lowered_final_sigma : lowered SMALL_FINAL_SIGMA.
Proof. split; [apply (lower_final_sigma U OK)|done]. Qed.

Lemma lowered_SPACE : lowered SPACE.
Proof.
  split; [|done]. by rewrite (ascii_lower_row U OK) by done.
Qed.

Lemma lower_from_Forall before s : Forall lowered (lower_from before s).
Proof.
  revert before. induction s as [|c s IH]; intros before; simpl; [done|].
  apply Forall_app. split; [|apply IH].
  destruct (c =? CAPITAL_SIGMA).
  - destruct (final_sigma before s); apply Forall_singleton;
      auto using lowered_final_sigma, lowered_small_sigma.
  - apply Forall_forall. intros d Hd. by apply (lowered_image c).
Qed.

(** A normalized string is empty or tight, and made of the space
    character and of lower-cased word characters. *)
Lemma normalize_text_shape text :
  let r := normalize_text text in
  (r = [] ∨ tight r) ∧ Forall (λ c, lowered c ∧ kept c) r.
Proof.
  destruct text as [[|c t]|]; simpl; try (split; [by left|done]).
  split; [apply (strip_sub_spaces_tight _)|].
  apply Forall_str_strip, Forall_sub_spaces.
  - split; [apply lowered_SPACE|apply orb_true_r].
  - apply Forall_strip_punctuation, lower_from_Forall.
Qed.

Lemma normalize_text_fixed s :
  (s = [] ∨ tight s) → Forall (λ c, lowered c ∧ kept c) s →
  normalize_text (Some s) = s.
Proof.
  intros [->|Hs] Hchars; [done|].
  destruct (tight_head s Hs) as (c & rest & -> & _).
  change (normalize_text (Some (c :: rest)))
    with (str_strip (sub_spaces false
            (strip_punctuation (str_lower (c :: rest))))).
  unfold str_lower. rewrite lower_from_lowered
    by (eapply Forall_impl; [done|by intros ? [? _]]).
  rewrite strip_punctuation_kept
    by (eapply Forall_impl; [done|by intros ? [_ ?]]).
  by rewrite sub_spaces_tight, str_strip_tight.
Qed.

Lemma normalize_text_idempotent x :
  normalize_text (Some (normalize_text (Some x))) = normalize_text (Some x).
Proof.
  destruct (normalize_text_shape (Some x)) as [Hshape Hchars].
  by apply normalize_text_fixed.
Qed.
End CharacterFacts.

(** ** The rows used by the examples satisfy the database facts *)

Ltac range_facts :=
  repeat match goal with
  | H : _ && _ = true |- _ => apply andb_true_iff in H; destruct H
  | H : _ && _ = false |- _ => apply andb_false_iff in H; destruct H
  | H : _ || _ = true |- _ => apply orb_true_iff in H; destruct H
  | H : _ || _ = false |- _ => apply orb_false_iff in H; destruct H
  | H : (_ <=? _) = true |- _ => apply N.leb_le in H
  | H : (_ <=? _) = false |- _ => apply N.leb_gt in H
  | H : (_ =? _) = true |- _ => apply N.eqb_eq in H
  | H : (_ =? _) = false |- _ => apply N.eqb_neq in H
  end.

Ltac range_cases :=
  repeat match goal with
  | |- context [if ?b then _ else _] => destruct b eqn:?
  end.

Ltac range_split :=
  repeat (match goal with
          | |- context [?a <=? ?b] => destruct (N.leb_spec a b)
          | |- context [?a =? ?b] => destruct (N.eqb_spec a b)
          end; try lia).

Lemma excerpt_lower_fixed c d :
  d ∈ excerpt_lower c → excerpt_lower d = [d].
Proof.
  unfold excerpt_lower at 1, in_range. range_cases;
    rewrite ?elem_of_cons, elem_of_nil; intros Hd;
    repeat (destruct Hd as [->|Hd]); try done;
    unfold excerpt_lower, in_range; range_cases;
    try done; range_facts; lia.
Qed.

Lemma excerpt_ok : unicode_ok excerpt.
Proof.
  split.
  - apply excerpt_lower_fixed.
  - reflexivity.
  - reflexivity.
  - intros c Hc. simpl. unfold excerpt_lower, ascii_lower, in_range.
    range_cases; try done; range_facts; lia.
  - intros c Hc. simpl.
    unfold excerpt_alnum, excerpt_letter, ascii_alnum, in_range.
    range_split; reflexivity.
Qed.

(** ** Basic Latin input

    On a string of Basic Latin every database that has the ASCII rows
    normalizes the same way. *)
Ltac ascii_closed := vm_compute; repeat constructor.

Section BasicLatin.
Context {U : UnicodeData} (OK : unicode_ok U).

Lemma ascii_lower_bound c : c < 128 → ascii_lower c < 128.
Proof. unfold ascii_lower, in_range. intros. range_split; simpl; lia. Qed.

Lemma lower_from_ascii before s :
  ascii_str s → lower_from before s = ascii_lower <$> s.
Proof.
  intros Hs. revert before.
  induction Hs as [|c s Hc Hs IH]; intros before; [done|].
  simpl. rewrite IH, (ascii_lower_row U OK c Hc).
  unfold CAPITAL_SIGMA. by destruct (N.eqb_spec c 0x3A3); [lia|].
Qed.

Lemma strip_punctuation_ascii s :
  ascii_str s →
  strip_punctuation s
  = List.filter (λ c, ascii_alnum c || (c =? UNDERSCORE) || is_space c) s.
Proof.
  unfold strip_punctuation, is_word.
  induction 1 as [|c s Hc Hs IH]; [done|].
  simpl. by rewrite IH, (ascii_alnum_row U OK c Hc).
Qed.

Lemma normalize_text_ascii s :
  ascii_str s →
  normalize_text (Some s)
  = str_strip (sub_spaces false
      (List.filter (λ c, ascii_alnum c || (c =? UNDERSCORE) || is_space c)
         (ascii_lower <$> s))).
Proof.
  intros Hs. destruct s as [|c s]; [done|].
  change (normalize_text (Some (c :: s)))
    with (str_strip (sub_spaces false
            (strip_punctuation (str_lower (c :: s))))).
  unfold str_lower. rewrite lower_from_ascii by done.
  rewrite strip_punctuation_ascii; [done|].
  apply Forall_fmap. eapply Forall_impl; [done|].
  intros d Hd. by apply ascii_lower_bound.
Qed.
End BasicLatin.

(** C8.  [normalize_text] is a function of its argument alone, it is
    idempotent, and it does not tell ["Hello!!"] from ["hello"]: both
    normalize to ["hello"]. *)
Theorem normalize_text_idempotent_caseless (U : UnicodeData) :
  unicode_ok U →
  (∀ x, normalize_text (Some (normalize_text (Some x)))
        = normalize_text (Some x))
  ∧ normalize_text (Some (utf8 "Hello!!")) = normalize_text (Some (utf8 "hello"))
  ∧ normalize_text (Some (utf8 "hello")) = utf8 "hello".
Proof.
  intros OK. split; [apply (normalize_text_idempotent OK)|].
  rewrite !(normalize_text_ascii OK) by ascii_closed. by vm_compute.
Qed.

Lemma normalize_text_idempotent_caseless_witness :
  normalize_text (Some (normalize_text (Some (utf8 "  ПРИВЕТ,   мир!  "))))
  = normalize_text (Some (utf8 "  ПРИВЕТ,   мир!  "))
  ∧ normalize_text (Some (utf8 "Hello!!")) = normalize_text (Some (utf8 "hello")).
Proof.
  destruct (normalize_text_idempotent_caseless excerpt excerpt_ok)
    as (Hidem & Hcase & _).
  split; [apply Hidem|apply Hcase].
Defined.

(** ** Knowledge matcher: the order of the tiers *)

Section Loops.
Implicit Types (cond : str → bool) (kb : knowledge).

Lemma dict_get_elem_of kb q v :
  dict_wf kb → (q, v) ∈ kb → dict_get kb q = Some v.
Proof.
  unfold dict_wf. induction kb as [|[k w] kb IH]; simpl.
  - by intros _ ?%elem_of_nil.
  - intros [Hk Hkb]%NoDup_cons [[= -> ->]|Hin]%elem_of_cons.
    + by rewrite bool_decide_eq_true_2.
    + case_bool_decide as Hq; [|by apply IH].
      subst k. destruct Hk. apply list_elem_of_fmap. by exists (q, v).
Qed.

Lemma dict_get_None kb q : q ∉ kb.*1 → dict_get kb q = None.
Proof.
  induction kb as [|[k w] kb IH]; simpl; [done|].
  intros [Hne Hq]%not_elem_of_cons.
  by rewrite bool_decide_eq_false_2, IH.
Qed.

Lemma first_value_None cond kb :
  (∀ k, k ∈ kb.*1 → cond k = false) → first_value cond kb = None.
Proof.
  induction kb as [|[k w] kb IH]; simpl; [done|]. intros Hall.
  rewrite (Hall k) by left. apply IH. intros k' Hk'. apply Hall. by right.
Qed.

Lemma first_value_first cond pre k v post :
  (∀ k', k' ∈ pre.*1 → cond k' = false) → cond k = true →
  first_value cond (pre ++ (k, v) :: post) = Some v.
Proof.
  intros Hpre Hk. induction pre as [|[k' w] pre IH]; simpl.
  - by rewrite Hk.
  - rewrite (Hpre k') by left. apply IH. intros ? ?. apply Hpre. by right.
Qed.

Lemma first_value_is_Some cond kb k :
  k ∈ kb.*1 → cond k = true → is_Some (first_value cond kb).
Proof.
  intros Hin Hk. induction kb as [|[k' w] kb IH]; simpl.
  - by apply elem_of_nil in Hin.
  - destruct (cond k') eqn:E; [done|]. apply IH.
    rewrite fmap_cons in Hin. simpl in Hin.
    apply elem_of_cons in Hin as [->|Hin]; [congruence|done].
Qed.
End Loops.

Lemma str_in_empty s : str_in [] s = true.
Proof. by destruct s. Qed.

Section MatcherFacts.
Context {U : UnicodeData}.

(** C1.  The four tiers of the lookup, first hit first: the value under
    the raw question if it is a key, whatever normalization would do to
    it; else the value of the first key that normalizes like the
    question; else the value of the first key one of whose normalized
    form and the normalized question contains the other; else what the
    word-overlap tier gives, NotFound included. *)
Theorem find_in_knowledge_base_tiers (kb : knowledge) (q : str) :
  dict_wf kb →
  let nq := normalize_text (Some q) in
  let same k := normalize_text (Some k) = nq in
  let overlapping k :=
    str_in (normalize_text (Some k)) nq = true
    ∨ str_in nq (normalize_text (Some k)) = true in
  (∀ v, (q, v) ∈ kb → find_in_knowledge_base kb q = Some v)
  ∧ (q ∉ kb.*1 →
      (∀ pre k v post,
          kb = pre ++ (k, v) :: post →
          (∀ k', k' ∈ pre.*1 → ¬ same k') → same k →
          find_in_knowledge_base kb q = Some v)
      ∧ ((∀ k, k ∈ kb.*1 → ¬ same k) →
          (∀ pre k v post,
              kb = pre ++ (k, v) :: post →
              (∀ k', k' ∈ pre.*1 → ¬ overlapping k') → overlapping k →
              find_in_knowledge_base kb q = Some v)
          ∧ ((∀ k, k ∈ kb.*1 → ¬ overlapping k) →
              find_in_knowledge_base kb q = word_overlap kb nq))).
Proof.
  intros Hwf nq same overlapping. split.
  { intros v Hv. unfold find_in_knowledge_base.
    by rewrite (dict_get_elem_of kb q v). }
  intros Hraw. unfold find_in_knowledge_base.
  rewrite (dict_get_None kb q Hraw). fold nq.
  assert (∀ k, same_normalized nq k = false ↔ ¬ same k) as Hsame.
  { intros k. unfold same_normalized. by rewrite bool_decide_eq_false. }
  assert (∀ k, contains_either nq k = false ↔ ¬ overlapping k) as Hover.
  { intros k. unfold contains_either, overlapping.
    rewrite orb_false_iff. split.
    - intros [H1 H2] [H|H]; congruence.
    - intros Hn. split; apply not_true_is_false; intros H; apply Hn; auto. }
  split.
  { intros pre k v post -> Hpre Hk.
    rewrite (first_value_first _ pre k v post); [done| |].
    - intros k' Hk'. by apply Hsame, Hpre.
    - by apply bool_decide_eq_true. }
  intros Hnone.
  rewrite first_value_None by (intros; by apply Hsame, Hnone).
  split.
  { intros pre k v post -> Hpre Hk.
    rewrite (first_value_first _ pre k v post); [done| |].
    - intros k' Hk'. by apply Hover, Hpre.
    - unfold contains_either. apply orb_true_iff. apply Hk. }
  intros Hnone'.
  by rewrite first_value_None by (intros; by apply Hover, Hnone').
Qed.

(** C9.  With a key that normalizes to the empty string in the base, the
    lookup finds a value for every question: the empty string is
    contained in every normalized question, so the third tier cannot
    miss. *)
Theorem find_in_knowledge_base_empty_key (kb : knowledge) (q k v : str) :
  (k, v) ∈ kb → normalize_text (Some k) = [] →
  find_in_knowledge_base kb q ≠ None.
Proof.
  intros Hin Hk. unfold find_in_knowledge_base.
  destruct (dict_get kb q); [done|].
  destruct (first_value (same_normalized _) kb); [done|].
  destruct (first_value_is_Some
              (contains_either (normalize_text (Some q))) kb k) as [w ->];
    [| |done].
  - apply list_elem_of_fmap. by exists (k, v).
  - unfold contains_either. by rewrite Hk, str_in_empty.
Qed.
End MatcherFacts.

(** ** Knowledge matcher: the word-overlap tier *)

Lemma Qle_ceiling_iff (x : Q) (z : Z) :
  (x <= inject_Z z)%Q ↔ (Qceiling x ≤ z)%Z.
Proof.
  split.
  - intros H. rewrite <- (Qceiling_Z z). by apply Qceiling_resp_le.
  - intros H. eapply Qle_trans; [apply Qle_ceiling|].
    by rewrite <- Zle_Qle.
Qed.

(** The test of the source against a float is the test against the
    rounded-up half of the number of question words. *)
Lemma meets_threshold_ceil (score n : nat) :
  meets_threshold score n = true
  ↔ (Z.max 1 (Qceiling (Q_of_nat n * (1 # 2))) ≤ Z.of_nat score)%Z.
Proof.
  unfold meets_threshold, py_max.
  set (x := (Q_of_nat n * (1 # 2))%Q).
  destruct (Qle_bool x 1) eqn:E.
  - apply Qle_bool_iff in E.
    assert (Qceiling x ≤ 1)%Z by (by apply (Qle_ceiling_iff x 1)).
    rewrite Qle_bool_iff. unfold Q_of_nat.
    rewrite <- (Zle_Qle 1). lia.
  - assert (¬ (x <= 1)%Q) as Hx by (rewrite <- Qle_bool_iff; congruence).
    assert (¬ (Qceiling x ≤ 1)%Z) by (by rewrite <- (Qle_ceiling_iff x 1)).
    rewrite Qle_bool_iff. unfold Q_of_nat.
    rewrite Qle_ceiling_iff. lia.
Qed.

Lemma meets_threshold_positive (score n : nat) :
  meets_threshold score n = true → (0 < score)%nat.
Proof. rewrite meets_threshold_ceil. lia. Qed.

Section OverlapFacts.
Context {U : UnicodeData}.
Context (question_words : gset str).

Local Abbreviation score := (key_score question_words).
Local Abbreviation count := (size question_words).
Local Abbreviation loop := (overlap_loop question_words).

Lemma overlap_loop_app pre post best_match best_score :
  loop (pre ++ post) best_match best_score
  = loop post (loop pre best_match best_score).1
              (loop pre best_match best_score).2.
Proof.
  revert best_match best_score.
  induction pre as [|[k v] pre IH]; intros bm bs; simpl; [done|].
  destruct (_ && _); apply IH.
Qed.

(** Keys that do not beat the best score, or do not meet the threshold,
    leave the two variables as they are. *)
Lemma overlap_loop_keep items best_match best_score :
  (∀ k, k ∈ items.*1 →
     (score k ≤ best_score)%nat ∨ meets_threshold (score k) count = false) →
  loop items best_match best_score = (best_match, best_score).
Proof.
  induction items as [|[k v] items IH]; simpl; [done|]. intros Hall.
  assert ((best_score <? score k)%nat
          && meets_threshold (score k) count = false) as ->.
  { destruct (Hall k) as [Hle| ->]; [by left| |apply andb_false_r].
    apply andb_false_iff. left. by apply Nat.ltb_ge. }
  apply IH. intros k' Hk'. apply Hall. by right.
Qed.

(** Keys that score below [s] leave the best score below [s]. *)
Lemma overlap_loop_bound items best_match best_score s :
  (best_score < s)%nat →
  (∀ k, k ∈ items.*1 → (score k < s)%nat) →
  ((loop items best_match best_score).2 < s)%nat.
Proof.
  revert best_match best_score.
  induction items as [|[k v] items IH]; intros bm bs Hbs Hall; [done|].
  simpl. assert (∀ k', k' ∈ items.*1 → (score k' < s)%nat)
    by (intros; apply Hall; by right).
  destruct (_ && _); apply IH; try done. apply Hall. by left.
Qed.

(** The first key with the highest score, when it meets the threshold,
    is the one the loop ends with. *)
Lemma overlap_loop_best pre k v post :
  meets_threshold (score k) count = true →
  (∀ k', k' ∈ pre.*1 → (score k' < score k)%nat) →
  (∀ k', k' ∈ post.*1 → (score k' ≤ score k)%nat) →
  loop (pre ++ (k, v) :: post) None 0%nat = (Some v, score k).
Proof.
  intros Hk Hpre Hpost. rewrite overlap_loop_app.
  pose proof (overlap_loop_bound pre None 0%nat (score k)
                (meets_threshold_positive _ _ Hk) Hpre) as Hbelow.
  simpl. apply Nat.ltb_lt in Hbelow. rewrite Hbelow, Hk. simpl.
  apply overlap_loop_keep. intros k' Hk'. left. by apply Hpost.
Qed.
End OverlapFacts.

Section OverlapTier.
Context {U : UnicodeData}.

(** C2, as the code has it.  The words of the question are counted
    once each: [questionWordCount] is the number of distinct words.  The
    tier runs only on a question of more than one distinct word; a key
    qualifies only with a score, the number of distinct words it shares
    with the question, of at least
    [max(1, ceil(0.5 * questionWordCount))]; the first key with the
    highest score, when it qualifies, gives the result: its answer, or
    NotFound when that answer is the empty string; with no qualifying
    key the result is NotFound. *)
Theorem word_overlap_tier (kb : knowledge) (nq : str) :
  let question_words := word_set nq in
  let count := size question_words in
  let score := key_score question_words in
  let qualifies k :=
    (Z.max 1 (Qceiling (Q_of_nat count * (1 # 2))) ≤ Z.of_nat (score k))%Z in
  count = length (remove_dups (str_split nq))
  ∧ ((count ≤ 1)%nat → word_overlap kb nq = None)
  ∧ ((∀ k, k ∈ kb.*1 → ¬ qualifies k) → word_overlap kb nq = None)
  ∧ ((1 < count)%nat →
      ∀ pre k v post,
        kb = pre ++ (k, v) :: post →
        qualifies k →
        (∀ k', k' ∈ pre.*1 → (score k' < score k)%nat) →
        (∀ k', k' ∈ post.*1 → (score k' ≤ score k)%nat) →
        word_overlap kb nq = match v with [] => None | _ => Some v end).
Proof.
  intros qw count score qualifies. unfold word_overlap. fold qw count.
  split; [|split; [|split]].
  - subst count qw. unfold word_set.
    rewrite <- (size_list_to_set (C:=gset str) (remove_dups (str_split nq)))
      by apply NoDup_remove_dups.
    f_equal. apply set_eq. intros w.
    by rewrite !elem_of_list_to_set, elem_of_remove_dups.
  - intros Hle. by apply Nat.ltb_ge in Hle as ->.
  - intros Hnone. rewrite overlap_loop_keep; [by destruct (_ <? _)%nat|].
    intros k Hk. right. apply not_true_is_false.
    rewrite meets_threshold_ceil. by apply Hnone.
  - intros Hcount pre k v post -> Hk Hpre Hpost.
    apply Nat.ltb_lt in Hcount as ->.
    rewrite (overlap_loop_best qw pre k v post); try done;
      [by destruct v|]. by apply meets_threshold_ceil.
Qed.
End OverlapTier.

(** ** Topic resolution *)

Section TopicFacts.
Context {U : UnicodeData}.

Lemma normalize_text_caseless a b :
  str_lower a = str_lower b →
  normalize_text (Some a) = normalize_text (Some b).
Proof.
  intros Hab.
  assert (∀ s, normalize_text (Some s)
               = str_strip (sub_spaces false
                   (strip_punctuation (str_lower s)))) as Hnorm
    by (by intros []).
  by rewrite !Hnorm, Hab.
Qed.

Lemma find_menu_topic_first pre item post q :
  (∀ i, i ∈ pre →
     normalize_text (Some (question i)) ≠ normalize_text (Some q)) →
  normalize_text (Some (question item)) = normalize_text (Some q) →
  find_menu_topic (pre ++ item :: post) q = suggestion_topic item.
Proof.
  intros Hpre Hitem. induction pre as [|i pre IH]; simpl.
  - by rewrite bool_decide_eq_true_2.
  - rewrite bool_decide_eq_false_2 by (apply Hpre; by left).
    apply IH. intros ? ?. apply Hpre. by right.
Qed.


End TopicFacts.

(** ** The external generator and the chat handler *)

Section GeneratorFacts.
Lemma in_apologies_auth : AUTH_ERROR ∈ [AUTH_ERROR; PARAM_ERROR; NO_ANSWER].
Proof. apply list_elem_of_here. Qed.

Lemma in_apologies_param :
  PARAM_ERROR ∈ [AUTH_ERROR; PARAM_ERROR; NO_ANSWER].
Proof. apply list_elem_of_further, list_elem_of_here. Qed.

Lemma in_apologies_none : NO_ANSWER ∈ [AUTH_ERROR; PARAM_ERROR; NO_ANSWER].
Proof. do 2 apply list_elem_of_further. apply list_elem_of_here. Qed.

Lemma gpt_attempts_outcome post attempts s :
  gpt_attempts post attempts = Return s →
  (∃ i, i ∈ attempts ∧ post i = Response 200 (Text s))
  ∨ s ∈ [AUTH_ERROR; PARAM_ERROR; NO_ANSWER].
Proof.
  induction attempts as [|i attempts IH]; simpl.
  - intros [= <-]. right. apply in_apologies_none.
  - assert (gpt_attempts post attempts = Return s →
            (∃ j, j ∈ i :: attempts ∧ post j = Response 200 (Text s))
            ∨ s ∈ [AUTH_ERROR; PARAM_ERROR; NO_ANSWER]) as Hrest.
    { intros [(j & Hj & Hpost)|Hs]%IH; [left|by right].
      exists j. split; [by apply list_elem_of_further|exact Hpost]. }
    destruct (post i) as [status body|[msg|msg]] eqn:Hpost;
      [|exact Hrest|discriminate].
    destruct (Z.eqb_spec status 200) as [->|_].
    { destruct body as [t|[msg|msg]]; [|exact Hrest|discriminate].
      intros [= ->]. left. exists i.
      split; [apply list_elem_of_here|exact Hpost]. }
    destruct (status =? 401)%Z;
      [intros [= <-]; right; apply in_apologies_auth|].
    destruct (status =? 400)%Z;
      [intros [= <-]; right; apply in_apologies_param|].
    exact Hrest.
Qed.

Lemma apologies_nonempty s :
  s ∈ [AUTH_ERROR; PARAM_ERROR; NO_ANSWER] → s ≠ [].
Proof.
  rewrite !elem_of_cons, elem_of_nil.
  intros [->|[->|[->|[]]]]; vm_compute; discriminate.
Qed.

Lemma gpt_attempts_retried post pre rest :
  Forall (λ i, retried (post i) = true) pre →
  gpt_attempts post (pre ++ rest) = gpt_attempts post rest.
Proof.
  induction 1 as [|i pre Hi Hpre IH]; [done|]. simpl.
  unfold retried in Hi.
  destruct (post i) as [status body|[msg|msg]]; [|done|done].
  destruct (status =? 200)%Z; [by destruct body as [t|[msg|msg]]|].
  by destruct (status =? 401)%Z, (status =? 400)%Z.
Qed.

Lemma call_yandex_gpt_no_answer net prompt :
  (∀ j, (j < 3)%nat → retried (net prompt j) = true) →
  call_yandex_gpt net prompt = Return NO_ANSWER.
Proof.
  intros Hall. unfold call_yandex_gpt.
  rewrite <- (app_nil_r (seq 0 3)), gpt_attempts_retried; [done|].
  apply Forall_seq. intros j Hj. apply Hall. lia.
Qed.

Lemma call_yandex_gpt_at net prompt i :
  (i < 3)%nat →
  (∀ j, (j < i)%nat → retried (net prompt j) = true) →
  call_yandex_gpt net prompt
  = gpt_attempts (net prompt) (i :: seq (S i) (3 - S i)).
Proof.
  intros Hi Hbefore. unfold call_yandex_gpt.
  replace (seq 0 3) with (seq 0 i ++ i :: seq (S i) (3 - S i)).
  - apply gpt_attempts_retried, Forall_seq. intros j Hj.
    apply Hbefore. lia.
  - assert (i = 0 ∨ i = 1 ∨ i = 2)%nat as Hcases by lia.
    by destruct Hcases as [Hi'|[Hi'|Hi']]; subst i.
Qed.

Lemma call_yandex_gpt_outcome net prompt s :
  call_yandex_gpt net prompt = Return s →
  (∃ i, (i < 3)%nat ∧ net prompt i = Response 200 (Text s))
  ∨ (s ∈ [AUTH_ERROR; PARAM_ERROR; NO_ANSWER] ∧ s ≠ []).
Proof.
  intros [(i & Hi & Hpost)|Hs]%gpt_attempts_outcome.
  - left. exists i. split; [|exact Hpost]. apply elem_of_seq in Hi. lia.
  - right. split; [exact Hs|by apply apologies_nonempty].
Qed.
End GeneratorFacts.

Section RouterFacts.
Context {U : UnicodeData}.
Context (menu_items : list MenuItem).
Context (suggestionMap : gmap str (list Suggestion)).
Context (net : network).

Local Arguments utf8 : simpl never.
Local Arguments app : simpl never.

Local Abbreviation run kb log message :=
  (chat menu_items suggestionMap kb net log message).

Lemma handler_sources_knowledge :
  SRC_KNOWLEDGE ∈ [SRC_KNOWLEDGE; SRC_SUGGESTION; SRC_GPT; SRC_ERROR].
Proof. apply list_elem_of_here. Qed.

Lemma handler_sources_suggestion :
  SRC_SUGGESTION ∈ [SRC_KNOWLEDGE; SRC_SUGGESTION; SRC_GPT; SRC_ERROR].
Proof. apply list_elem_of_further, list_elem_of_here. Qed.

Lemma handler_sources_gpt :
  SRC_GPT ∈ [SRC_KNOWLEDGE; SRC_SUGGESTION; SRC_GPT; SRC_ERROR].
Proof. do 2 apply list_elem_of_further. apply list_elem_of_here. Qed.

Lemma handler_sources_error :
  SRC_ERROR ∈ [SRC_KNOWLEDGE; SRC_SUGGESTION; SRC_GPT; SRC_ERROR].
Proof. do 3 apply list_elem_of_further. apply list_elem_of_here. Qed.

(** C7, as the code has it.  Whatever the message, the [source] of the
    reply is one of ["knowledge_base"], ["suggestion_map"],
    ["yandex_gpt"] and ["error"]. *)
Theorem chat_source_values (kb : knowledge) (log : list LogEntry)
    (message : str) :
  source (run kb log message).1
  ∈ [SRC_KNOWLEDGE; SRC_SUGGESTION; SRC_GPT; SRC_ERROR].
Proof.
  unfold chat. destruct (str_strip message) as [|c q];
    [apply handler_sources_error|].
  unfold chat_body.
  destruct (find_menu_topic menu_items (c :: q)) as [[|d topic]|].
  - destruct (find_in_knowledge_base kb (c :: q)) as [[|? ?]|]; simpl;
      try apply handler_sources_knowledge;
      destruct (call_yandex_gpt net (c :: q)); simpl;
      first [apply handler_sources_gpt|apply handler_sources_error].
  - destruct (find_suggestion_answer _ (c :: q)) as [[|? ?]|]; simpl;
      try apply handler_sources_suggestion;
      destruct (find_in_knowledge_base kb (c :: q)) as [[|? ?]|]; simpl;
      try apply handler_sources_knowledge;
      destruct (call_yandex_gpt net (c :: q)); simpl;
      first [apply handler_sources_gpt|apply handler_sources_error].
  - destruct (find_in_knowledge_base kb (c :: q)) as [[|? ?]|]; simpl;
      try apply handler_sources_knowledge;
      destruct (call_yandex_gpt net (c :: q)); simpl;
      first [apply handler_sources_gpt|apply handler_sources_error].
Qed.

(** Without a menu topic, an answer of the knowledge base that counts as
    true is the reply, with the default suggestions, and the generator is
    not asked. *)
Lemma chat_knowledge_answer (kb : knowledge) (log : list LogEntry)
    (message : str) (found : str) :
  str_strip message ≠ [] → found ≠ [] →
  truthy (find_menu_topic menu_items (str_strip message)) = false →
  find_in_knowledge_base kb (str_strip message) = Some found →
  (run kb log message).1
  = {| response := found; source := SRC_KNOWLEDGE;
       suggestions :=
         quick_reply <$> default [] (suggestionMap !! DEFAULT_TOPIC) |}.
Proof.
  intros Hq Hfound Htopic Hkb. unfold chat, chat_body.
  destruct (str_strip message) as [|c q]; [done|]. rewrite Hkb.
  destruct found as [|d found]; [done|].
  by destruct (find_menu_topic menu_items (c :: q)) as [[|? ?]|].
Qed.

(** The reply to a question that the router hands to the generator. *)
Lemma chat_generator_reply (kb : knowledge) (log : list LogEntry)
    (message : str) :
  let q := str_strip message in
  let r := (run kb log message).1 in
  q ≠ [] → escalates menu_items suggestionMap kb q = true →
  match call_yandex_gpt net q with
  | Raise e => response r = CHAT_ERROR ∧ source r = SRC_ERROR
  | Return s => response r = s ∧ source r = SRC_GPT
  end.
Proof.
  intros q r Hq Hesc. subst r. unfold chat. fold q.
  destruct q as [|c q'] eqn:Eq; [done|]. clear Hq.
  unfold escalates in Hesc. unfold chat_body.
  destruct (find_menu_topic menu_items (c :: q')) as [[|d topic]|].
  - destruct (find_in_knowledge_base kb (c :: q')) as [[|? ?]|];
      try discriminate;
      destruct (call_yandex_gpt net (c :: q')) as [s|e]; simpl; auto.
  - destruct (find_suggestion_answer _ (c :: q')) as [[|? ?]|];
      try discriminate;
      destruct (find_in_knowledge_base kb (c :: q')) as [[|? ?]|];
      try discriminate;
      destruct (call_yandex_gpt net (c :: q')) as [s|e]; simpl; auto.
  - destruct (find_in_knowledge_base kb (c :: q')) as [[|? ?]|];
      try discriminate;
      destruct (call_yandex_gpt net (c :: q')) as [s|e]; simpl; auto.
Qed.

(** C5, as the code has it.  When the router turns to the external
    generator, every failure of the generator ends in a reply with a
    non-empty string and none leaves the handler.  A failure that
    [call_yandex_gpt] handles itself comes back as one of its three
    apologies, which the handler passes on with source ["yandex_gpt"]:
    status 401 and status 400 on the first attempt that is not retried,
    and three attempts that each end in a connection error or another
    status.  A failure raised out of [call_yandex_gpt], any exception
    other than a connection error, is caught by the handler and becomes
    the error string with source ["error"]. *)
Theorem chat_generator_failures (kb : knowledge) (log : list LogEntry)
    (message : str) :
  let q := str_strip message in
  let r := (run kb log message).1 in
  let retried_before i :=
    ∀ j, (j < i)%nat → retried (net q j) = true in
  q ≠ [] → escalates menu_items suggestionMap kb q = true →
  match call_yandex_gpt net q with
  | Raise e =>
      response r = CHAT_ERROR ∧ CHAT_ERROR ≠ [] ∧ source r = SRC_ERROR
  | Return s =>
      response r = s ∧ source r = SRC_GPT
      ∧ ((∃ i, (i < 3)%nat ∧ net q i = Response 200 (Text s))
         ∨ (s ∈ [AUTH_ERROR; PARAM_ERROR; NO_ANSWER] ∧ s ≠ []))
  end
  ∧ (retried_before 3%nat →
     response r = NO_ANSWER ∧ source r = SRC_GPT)
  ∧ (∀ i, (i < 3)%nat → retried_before i →
       (∀ body, net q i = Response 401 body →
                response r = AUTH_ERROR ∧ source r = SRC_GPT)
       ∧ (∀ body, net q i = Response 400 body →
                  response r = PARAM_ERROR ∧ source r = SRC_GPT)
       ∧ (∀ msg,
            net q i = PostRaises (OtherException msg)
            ∨ net q i = Response 200 (BodyRaises (OtherException msg)) →
            response r = CHAT_ERROR ∧ source r = SRC_ERROR)).
Proof.
  intros q r retried_before Hq Hesc.
  pose proof (chat_generator_reply kb log message Hq Hesc) as Hreply.
  cbv zeta in Hreply. fold q r in Hreply.
  split; [|split].
  - pose proof (call_yandex_gpt_outcome net q) as Hout.
    destruct (call_yandex_gpt net q) as [s|e].
    + destruct Hreply as [Hr Hs]. auto.
    + destruct Hreply as [Hr Hs].
      split; [done|split; [vm_compute; discriminate|done]].
  - intros Hall. by rewrite (call_yandex_gpt_no_answer net q Hall) in Hreply.
  - intros i Hi Hbefore.
    rewrite (call_yandex_gpt_at net q i Hi Hbefore) in Hreply.
    cbn [gpt_attempts] in Hreply. split; [|split].
    + intros body Hpost. by rewrite Hpost in Hreply.
    + intros body Hpost. by rewrite Hpost in Hreply.
    + intros msg [Hpost|Hpost]; by rewrite Hpost in Hreply.
Qed.

(** C10.  An entry whose answer is the empty string counts as no entry:
    the word-overlap tier never gives the empty string; a base where
    the lookup gives the empty string and a base where it gives
    NotFound lead to the same reply and the same log; and without a
    menu topic such a lookup sends the question to the external
    generator, whose answer is the reply. *)
Theorem chat_empty_answer_is_not_found :
  (∀ kb nq, word_overlap kb nq ≠ Some [])
  ∧ (∀ kb kb' log message,
        find_in_knowledge_base kb (str_strip message) = Some [] →
        find_in_knowledge_base kb' (str_strip message) = None →
        run kb log message = run kb' log message)
  ∧ (∀ kb log message s,
        str_strip message ≠ [] →
        find_in_knowledge_base kb (str_strip message) = Some [] →
        truthy (find_menu_topic menu_items (str_strip message)) = false →
        call_yandex_gpt net (str_strip message) = Return s →
        response (run kb log message).1 = s
        ∧ source (run kb log message).1 = SRC_GPT).
Proof.
  split; [|split].
  - intros kb nq. unfold word_overlap.
    destruct (_ <? _)%nat; [|done].
    by destruct (overlap_loop _ kb None 0%nat).1 as [[|? ?]|].
  - intros kb kb' log message Hkb Hkb'. unfold chat, chat_body.
    destruct (str_strip message) as [|c q]; [reflexivity|].
    rewrite Hkb, Hkb'.
    destruct (find_menu_topic menu_items (c :: q)) as [[|? ?]|];
      try reflexivity.
    by destruct (find_suggestion_answer _ (c :: q)) as [[|? ?]|].
  - intros kb log message s Hq Hkb Htopic Hgpt. unfold chat, chat_body.
    destruct (str_strip message) as [|c q]; [done|].
    rewrite Hkb, Hgpt.
    by destruct (find_menu_topic menu_items (c :: q)) as [[|? ?]|].
Qed.
End RouterFacts.

(** ** The normalizer against the specification's wording *)

Section SpecNormalizer.
Context {U : UnicodeData}.

(** Apart from the underscore the two agree. *)
Lemma normalize_text_spec_without_underscore (text : option str) :
  UNDERSCORE ∉ str_lower (default [] text) →
  normalize_text text = spec_normalize text.
Proof.
  destruct text as [[|c t]|]; [done| |done]. simpl default. intros Hno.
  unfold spec_normalize.
  change (normalize_text (Some (c :: t)))
    with (str_strip (sub_spaces false
            (strip_punctuation (str_lower (c :: t))))).
  do 2 f_equal. unfold strip_punctuation, is_word.
  induction (str_lower (c :: t)) as [|d s IH]; [done|].
  apply not_elem_of_cons in Hno as [Hd Hs]. simpl. rewrite IH by done.
  by destruct (N.eqb_spec d UNDERSCORE) as [->|_];
    [|rewrite orb_false_r].
Qed.

Context (OK : unicode_ok U).

Lemma spec_normalize_ascii s :
  ascii_str s →
  spec_normalize (Some s)
  = str_strip (sub_spaces false
      (List.filter (λ c, ascii_alnum c || is_space c) (ascii_lower <$> s))).
Proof.
  intros Hs. unfold spec_normalize, str_lower.
  rewrite (lower_from_ascii OK) by done. do 2 f_equal.
  assert (ascii_str (ascii_lower <$> s)) as Hlow.
  { apply Forall_fmap. eapply Forall_impl; [done|].
    intros d Hd. by apply ascii_lower_bound. }
  induction Hlow as [|d l Hd Hl IH]; [done|].
  simpl. by rewrite IH, (ascii_alnum_row U OK d Hd).
Qed.
End SpecNormalizer.

(** C3.  On ["a_b"] the code keeps the underscore, which is neither a
    letter, nor a digit, nor white space: [normalize_text] gives ["a_b"]
    where the normalizer of the specification gives ["ab"]. *)
Theorem normalize_text_keeps_underscore (U : UnicodeData) :
  unicode_ok U →
  normalize_text (Some (utf8 "a_b")) = utf8 "a_b"
  ∧ spec_normalize (Some (utf8 "a_b")) = utf8 "ab".
Proof.
  intros OK. split.
  - rewrite (normalize_text_ascii OK) by ascii_closed. by vm_compute.
  - rewrite (spec_normalize_ascii OK) by ascii_closed. by vm_compute.
Qed.

Lemma normalize_text_keeps_underscore_witness :
  normalize_text (Some (utf8 "a_b")) = utf8 "a_b"
  ∧ spec_normalize (Some (utf8 "a_b")) = utf8 "ab".
Proof. exact (normalize_text_keeps_underscore excerpt excerpt_ok). Defined.

(** ** Suggestions of a topic *)

(** [get_suggestions_by_topic] falls back on the default topic, so with a
    populated default it never answers the empty list. *)
Lemma get_suggestions_by_topic_fallback {U : UnicodeData}
    (suggestionMap : gmap str (list Suggestion)) (topic : str) s rest :
  suggestionMap !! DEFAULT_TOPIC = Some (s :: rest) →
  get_suggestions_by_topic suggestionMap topic ≠ [].
Proof.
  intros Hdefault. unfold get_suggestions_by_topic.
  destruct (default [] (suggestionMap !! str_lower topic)); [|done].
  by rewrite Hdefault.
Qed.

(** C4.  With the default topic populated and a menu button whose topic
    ["vr"] has no entry in [suggestionMap], the chat handler resolves the
    topic and replies with an empty suggestion list, where
    [get_suggestions_by_topic] answers the default suggestions for the
    same topic. *)
Theorem chat_absent_topic_suggestions :
  topics_default_only !! DEFAULT_TOPIC = Some [sug_prices]
  ∧ topics_default_only !! utf8 "vr" = None
  ∧ find_menu_topic menu_vr (utf8 "vr") = Some (utf8 "vr")
  ∧ suggestions
      (chat menu_vr topics_default_only [] net_unauthorized [] (utf8 "vr")).1
    = []
  ∧ get_suggestions_by_topic topics_default_only (utf8 "vr") = [sug_prices].
Proof. by vm_compute. Qed.

(** ** The properties at work *)

Lemma find_in_knowledge_base_tiers_witness :
  normalize_text (Some (utf8 "Привет!")) = utf8 "привет"
  ∧ find_in_knowledge_base kb_greetings (utf8 "Привет!") = Some (utf8 "A").
Proof.
  split; [by vm_compute|].
  assert (dict_wf kb_greetings) as Hwf
    by (apply (bool_decide_unpack _); vm_compute; exact I).
  destruct (find_in_knowledge_base_tiers kb_greetings (utf8 "Привет!") Hwf)
    as [Hraw _].
  apply Hraw. apply list_elem_of_further, list_elem_of_here.
Defined.

Lemma find_in_knowledge_base_empty_key_witness :
  find_in_knowledge_base kb_punctuation (utf8 "что угодно") ≠ None.
Proof.
  apply (find_in_knowledge_base_empty_key kb_punctuation _
           (utf8 "!!!") (utf8 "?")).
  - apply list_elem_of_here.
  - by vm_compute.
Defined.

Lemma word_overlap_tier_witness :
  word_overlap kb_tie (utf8 "a b z") = Some (utf8 "x")
  ∧ find_in_knowledge_base kb_tie (utf8 "a b z") = Some (utf8 "x").
Proof.
  split; [|vm_compute; reflexivity].
  destruct (word_overlap_tier kb_tie (utf8 "a b z"))
    as (_ & _ & _ & Hbest).
  apply (Hbest ltac:(vm_compute; lia) []
           (utf8 "a b d") (utf8 "x") [(utf8 "b a c", utf8 "y")]).
  - reflexivity.
  - by vm_compute.
  - intros k' Hk'. by apply elem_of_nil in Hk'.
  - intros k' Hk'. apply list_elem_of_singleton in Hk' as ->.
    vm_compute. lia.
Defined.

(** The first key with the highest qualifying score is not returned when
    its answer is the empty string; and a question of four words, three
    of them the same, is answered by a key that shares one word with it,
    below the threshold of a question of four words. *)
Lemma word_overlap_tier_counterexample :
  (let question_words := word_set (utf8 "b a") in
   (1 < size question_words)%nat
   ∧ meets_threshold (key_score question_words (utf8 "a b"))
                     (size question_words) = true
   ∧ word_overlap kb_empty_answer (utf8 "b a") = None
   ∧ find_in_knowledge_base kb_empty_answer (utf8 "b a") = None)
  ∧ (let question_words := word_set (utf8 "a a a b") in
     length (str_split (utf8 "a a a b")) = 4%nat
     ∧ key_score question_words (utf8 "b x") = 1%nat
     ∧ meets_threshold 1 4 = false
     ∧ find_in_knowledge_base kb_repeated_word (utf8 "a a a b")
       = Some (utf8 "ans")).
Proof. vm_compute. repeat split; lia. Qed.


(** A question in another script is not a question in another case. *)
Lemma find_menu_topic_other_script :
  find_menu_topic menu_vr_cyrillic (utf8 "VR") = None.
Proof. by vm_compute. Qed.


(** A refused key is a failure of the generator, and the reply is not
    tagged ["error"]. *)
Lemma chat_generator_failures_counterexample :
  call_yandex_gpt net_unauthorized (utf8 "hi") = Return AUTH_ERROR
  ∧ source (chat [] ∅ [] net_unauthorized [] (utf8 "hi")).1 ≠ utf8 "error".
Proof. vm_compute. split; [reflexivity|discriminate]. Qed.

Lemma chat_generator_failures_witness :
  (response (chat [] ∅ [] net_malformed [] (utf8 "hi")).1 = CHAT_ERROR
   ∧ source (chat [] ∅ [] net_malformed [] (utf8 "hi")).1 = SRC_ERROR)
  ∧ (response (chat [] ∅ [] net_flaky [] (utf8 "hi")).1 = PARAM_ERROR
     ∧ source (chat [] ∅ [] net_flaky [] (utf8 "hi")).1 = SRC_GPT)
  ∧ (response (chat [] ∅ [] net_down [] (utf8 "hi")).1 = NO_ANSWER
     ∧ source (chat [] ∅ [] net_down [] (utf8 "hi")).1 = SRC_GPT).
Proof.
  split; [|split].
  - pose proof (chat_generator_failures [] ∅ net_malformed [] []
                  (utf8 "hi") ltac:(vm_compute; discriminate)
                  ltac:(by vm_compute)) as (_ & _ & Hfirst).
    destruct (Hfirst 0%nat ltac:(lia) ltac:(intros j Hj; lia))
      as (_ & _ & Hraised).
    apply (Hraised (utf8 "'result'")). by right.
  - pose proof (chat_generator_failures [] ∅ net_flaky [] []
                  (utf8 "hi") ltac:(vm_compute; discriminate)
                  ltac:(by vm_compute)) as (_ & _ & Hfirst).
    assert (∀ j, (j < 2)%nat → retried (net_flaky (str_strip (utf8 "hi")) j)
                               = true) as Hbefore
      by (intros [|[|j]] Hj; [reflexivity|reflexivity|lia]).
    destruct (Hfirst 2%nat ltac:(lia) Hbefore) as (_ & Hparam & _).
    by apply (Hparam (Text [])).
  - pose proof (chat_generator_failures [] ∅ net_down [] []
                  (utf8 "hi") ltac:(vm_compute; discriminate)
                  ltac:(by vm_compute)) as (_ & Hnone & _).
    apply Hnone. by intros j Hj.
Defined.

(** The reply to a question that only the generator answers carries a
    source that is none of the four of the specification. *)
Lemma chat_source_values_counterexample :
  source (chat [] ∅ [] (net_answers (utf8 "ok")) [] (utf8 "hi")).1
  ∉ SPEC_SOURCES.
Proof.
  rewrite list_elem_of_In. vm_compute.
  intros [H|[H|[H|[H|[]]]]]; discriminate.
Qed.

Lemma chat_empty_answer_is_not_found_witness :
  chat [] ∅ kb_silent_greeting net_unauthorized [] (utf8 "привет")
  = chat [] ∅ [] net_unauthorized [] (utf8 "привет").
Proof.
  destruct (chat_empty_answer_is_not_found [] ∅ net_unauthorized)
    as (_ & Hsame & _).
  apply Hsame; by vm_compute.
Defined.

(** The scenarios of the specification, run on the code. *)

Example lookup_substring_tier :
  find_in_knowledge_base [(utf8 "vr игры", utf8 "ans1")]
    (utf8 "хочу vr игры сегодня") = Some (utf8 "ans1").
Proof. by vm_compute. Qed.

Example overlap_boundary :
  let question_words :=
    word_set (utf8 "можно забронировать батуты на завтра") in
  size question_words = 5%nat
  ∧ key_score question_words (utf8 "забронировать батуты") = 2%nat
  ∧ meets_threshold 2 5 = false
  ∧ meets_threshold 3 5 = true.
Proof. vm_compute. repeat split. Qed.

Example chat_greeting :
  (chat [] ∅ [(utf8 "привет", utf8 "Привет!")] net_unauthorized []
     (utf8 "ПРИВЕТ")).1
  = {| response := utf8 "Привет!"; source := utf8 "knowledge_base";
       suggestions := [] |}.
Proof. by vm_compute. Qed.

Example chat_empty_message :
  chat menu_vr topics_default_only kb_greetings net_unauthorized []
    (utf8 "   ")
  = ({| response := ASK_PROMPT; source := utf8 "error";
        suggestions := [] |}, []).
Proof. by vm_compute. Qed.

Example chat_suggestion_answer :
  (chat menu_vr topics_vr kb_greetings net_unauthorized [] (utf8 " VR! ")).1
  = {| response := utf8 "VR-игры!"; source := utf8 "suggestion_map";
       suggestions := [(utf8 "Игры", utf8 "vr")] |}.
Proof. by vm_compute. Qed.

Example chat_generator_answer :
  chat menu_vr topics_default_only [] (net_answers (utf8 "ok")) []
    (utf8 "часы работы")
  = ({| response := utf8 "ok"; source := utf8 "yandex_gpt";
        suggestions := [(utf8 "Цены", utf8 "цены")] |},
     [{| log_question := utf8 "часы работы"; log_answer := utf8 "ok";
         log_source := utf8 "yandex_gpt" |}]).
Proof. by vm_compute. Qed.

(* ====================================================================== *)
(** * Further properties of the handlers *)

(** ** Shape of a normalized string *)

Section NormalForm.
Context {U : UnicodeData}.

Lemma tight_spaces s :
  tight s → Forall (λ c, is_space c = true → c = SPACE) s.
Proof.
  induction 1 as [c Hc|c s Hc Hs IH|c s Hc Hs IH].
  - apply Forall_singleton. congruence.
  - constructor; [congruence|done].
  - constructor; [congruence|]. by constructor.
Qed.

Lemma tight_ends s :
  tight s →
  (∃ c rest, s = c :: rest ∧ is_space c = false)
  ∧ (∃ front c, s = front ++ [c] ∧ is_space c = false).
Proof.
  intros Hs. split; [by apply tight_head|].
  induction Hs as [c Hc|c s Hc Hs IH|c s Hc Hs IH].
  - by exists [], c.
  - destruct IH as (front & d & -> & Hd). by exists (c :: front), d.
  - destruct IH as (front & d & -> & Hd).
    by exists (c :: SPACE :: front), d.
Qed.

Lemma tight_no_double s :
  tight s → ∀ i, s !! i = Some SPACE → s !! S i ≠ Some SPACE.
Proof.
  induction 1 as [c Hc|c s Hc Hs IH|c s Hc Hs IH]; intros i Hi.
  - by destruct i.
  - destruct i as [|i]; simpl in *.
    + injection Hi as ->. done.
    + by apply IH.
  - destruct i as [|[|i]]; simpl in *.
    + injection Hi as ->. done.
    + destruct (tight_head s Hs) as (d & rest & -> & Hd).
      simpl. intros [= ->]. done.
    + by apply IH.
Qed.

(** X1.  Whatever the text, the result of [normalize_text] has no white
    space at either end, no white space but the space character, never two
    spaces in a row, and only word characters ([\w]) besides spaces. *)
Theorem normalize_text_normal_form (text : option str) :
  let r := normalize_text text in
  str_strip r = r
  ∧ Forall (λ c, if is_space c then c = SPACE else is_word c = true) r
  ∧ (∀ i, r !! i = Some SPACE → r !! S i ≠ Some SPACE)
  ∧ (∀ c rest, r = c :: rest → is_space c = false)
  ∧ (∀ front c, r = front ++ [c] → is_space c = false).
Proof.
  intros r.
  assert (r = [] ∨ tight r) as Hshape.
  { subst r. destruct text as [[|c t]|]; simpl; try by left.
    apply (strip_sub_spaces_tight _). }
  assert (Forall (λ c, c = SPACE ∨ is_word c || is_space c = true) r)
    as Hchars.
  { subst r. destruct text as [[|c t]|]; simpl; try done.
    apply Forall_str_strip, Forall_sub_spaces; [by left|].
    unfold strip_punctuation.
    induction (str_lower (c :: t)) as [|d s IH]; simpl; [done|].
    destruct (is_word d || is_space d) eqn:E; [|done].
    constructor; [by right|done]. }
  clearbody r. destruct Hshape as [->|Htight];
    [repeat split; try done; by intros [] ? [=]|].
  repeat split.
  - by apply str_strip_tight.
  - pose proof (tight_spaces r Htight) as Hsp.
    rewrite Forall_forall in Hsp, Hchars. apply Forall_forall.
    intros c Hc. destruct (is_space c) eqn:E; [by apply Hsp|].
    destruct (Hchars c Hc) as [->|Hw]; [done|].
    by rewrite E, orb_false_r in Hw.
  - by apply tight_no_double.
  - intros c rest Hr. destruct (tight_head r Htight) as (d & ? & Hd & ?).
    congruence.
  - intros front c Hr.
    destruct (tight_ends r Htight) as (_ & front' & d & Hd & Hsp).
    rewrite Hd in Hr. by apply app_inj_tail in Hr as [_ <-].
Qed.
End NormalForm.

(** ** What the lookup can answer *)

Section LookupFacts.
Context {U : UnicodeData}.

Lemma dict_get_Some_elem_of (kb : knowledge) q v :
  dict_get kb q = Some v → (q, v) ∈ kb.
Proof.
  induction kb as [|[k w] kb IH]; simpl; [done|].
  case_bool_decide as Hk.
  - intros [= ->]. subst k. apply list_elem_of_here.
  - intros Hv. by apply list_elem_of_further, IH.
Qed.

Lemma first_value_Some_elem_of cond (kb : knowledge) v :
  first_value cond kb = Some v → ∃ k, (k, v) ∈ kb ∧ cond k = true.
Proof.
  induction kb as [|[k w] kb IH]; simpl; [done|].
  destruct (cond k) eqn:Hk.
  - intros [= ->]. exists k. split; [apply list_elem_of_here|done].
  - intros (k' & Hin & Hk')%IH. exists k'.
    split; [by apply list_elem_of_further|done].
Qed.

Lemma overlap_loop_elem_of question_words (items : knowledge)
    best_match best_score v :
  (overlap_loop question_words items best_match best_score).1 = Some v →
  best_match = Some v
  ∨ ∃ k, (k, v) ∈ items
         ∧ meets_threshold (key_score question_words k)
                           (size question_words) = true.
Proof.
  revert best_match best_score.
  induction items as [|[k w] items IH]; intros bm bs; simpl; [by left|].
  destruct (_ <? _)%nat; simpl.
  - destruct (meets_threshold _ _) eqn:Hk.
    + intros [[= ->]|(k' & Hin & Hk')]%IH; right.
      * exists k. split; [apply list_elem_of_here|done].
      * exists k'. split; [by apply list_elem_of_further|done].
    + intros [Hbm|(k' & Hin & Hk')]%IH; [by left|right].
      exists k'. split; [by apply list_elem_of_further|done].
  - intros [Hbm|(k' & Hin & Hk')]%IH; [by left|right].
    exists k'. split; [by apply list_elem_of_further|done].
Qed.

(** X2.  The lookup never makes an answer up: what it returns is the
    value of an entry of the base whose key is the raw question, or
    normalizes like it, or whose normalized form contains the normalized
    question or is contained in it, or shares a word with it. *)
Theorem find_in_knowledge_base_sound (kb : knowledge) (q v : str) :
  find_in_knowledge_base kb q = Some v →
  ∃ k, (k, v) ∈ kb
       ∧ (k = q
          ∨ normalize_text (Some k) = normalize_text (Some q)
          ∨ str_in (normalize_text (Some k)) (normalize_text (Some q)) = true
          ∨ str_in (normalize_text (Some q)) (normalize_text (Some k)) = true
          ∨ (1 ≤ key_score (word_set (normalize_text (Some q))) k)%nat).
Proof.
  unfold find_in_knowledge_base.
  destruct (dict_get kb q) as [w|] eqn:Hraw.
  { intros [= ->]. exists q. split; [by apply dict_get_Some_elem_of|by left]. }
  destruct (first_value (same_normalized _) kb) as [w|] eqn:Hsame.
  { intros [= ->].
    apply first_value_Some_elem_of in Hsame as (k & Hin & Hk).
    exists k. split; [done|]. right; left.
    by apply bool_decide_eq_true in Hk. }
  destruct (first_value (contains_either _) kb) as [w|] eqn:Hsub.
  { intros [= ->].
    apply first_value_Some_elem_of in Hsub as (k & Hin & Hk).
    exists k. split; [done|].
    apply orb_true_iff in Hk as [Hk|Hk]; auto. }
  unfold word_overlap. destruct (_ <? _)%nat; [|done].
  destruct (truthy _); [|done].
  intros [?|(k & Hin & Hk)]%overlap_loop_elem_of; [done|].
  exists k. split; [done|]. do 4 right.
  by apply meets_threshold_positive in Hk.
Qed.

(** X3.  Two questions that are not keys themselves and that normalize
    alike, in particular two that differ only in letter case, get the same
    result from the lookup. *)
Theorem find_in_knowledge_base_normalized (kb : knowledge) (q1 q2 : str) :
  q1 ∉ kb.*1 → q2 ∉ kb.*1 →
  normalize_text (Some q1) = normalize_text (Some q2)
  ∨ str_lower q1 = str_lower q2 →
  find_in_knowledge_base kb q1 = find_in_knowledge_base kb q2.
Proof.
  intros H1 H2 Hsame.
  assert (normalize_text (Some q1) = normalize_text (Some q2)) as Hnorm
    by (destruct Hsame; [done|by apply normalize_text_caseless]).
  unfold find_in_knowledge_base.
  by rewrite (dict_get_None kb q1), (dict_get_None kb q2), Hnorm.
Qed.
End LookupFacts.

Lemma find_in_knowledge_base_sound_witness :
  ∃ k, (k, utf8 "ans1") ∈ [(utf8 "vr игры", utf8 "ans1")]
       ∧ (k = utf8 "хочу vr игры сегодня"
          ∨ normalize_text (Some k)
            = normalize_text (Some (utf8 "хочу vr игры сегодня"))
          ∨ str_in (normalize_text (Some k))
              (normalize_text (Some (utf8 "хочу vr игры сегодня"))) = true
          ∨ str_in (normalize_text (Some (utf8 "хочу vr игры сегодня")))
              (normalize_text (Some k)) = true
          ∨ (1 ≤ key_score
                   (word_set
                      (normalize_text (Some (utf8 "хочу vr игры сегодня"))))
                   k)%nat).
Proof.
  apply (find_in_knowledge_base_sound [(utf8 "vr игры", utf8 "ans1")]).
  by vm_compute.
Defined.

Lemma find_in_knowledge_base_normalized_witness :
  find_in_knowledge_base kb_greetings (utf8 "ПРИВЕТ")
  = find_in_knowledge_base kb_greetings (utf8 "ПриВет").
Proof.
  apply find_in_knowledge_base_normalized.
  - apply (bool_decide_unpack _). vm_compute. exact I.
  - apply (bool_decide_unpack _). vm_compute. exact I.
  - right. by vm_compute.
Defined.

(** ** The three question handlers *)

Section HandlerFacts.
Context {U : UnicodeData}.
Context (menu_items : list MenuItem).
Context (suggestionMap : gmap str (list Suggestion)).
Context (kb : knowledge).
Context (net : network).

Local Arguments utf8 : simpl never.
Local Arguments app : simpl never.

Local Abbreviation run_chat := (chat menu_items suggestionMap kb net).

Lemma generator_answer_nonempty prompt s :
  call_yandex_gpt net prompt = Return s →
  s ≠ [] ∨ ∃ i, (i < 3)%nat ∧ net prompt i = Response 200 (Text []).
Proof.
  intros [(i & Hi & Hpost)|[_ Hs]]%call_yandex_gpt_outcome; [|by left].
  destruct s; [right; by exists i|by left].
Qed.

Lemma prefixed_nonempty (prefix s : str) : prefix ≠ [] → prefix ++ s ≠ [].
Proof. by destruct prefix. Qed.

(** X4.  The chat handler never replies with an empty text, unless the
    remote service itself answered status 200 with an empty text. *)
Theorem chat_response_nonempty (log : list LogEntry) (message : str) :
  response (run_chat log message).1 ≠ []
  ∨ ∃ i, (i < 3)%nat
         ∧ net (str_strip message) i = Response 200 (Text []).
Proof.
  unfold chat. destruct (str_strip message) as [|c q];
    [left; vm_compute; discriminate|].
  assert (CHAT_ERROR ≠ []) as Herr by (vm_compute; discriminate).
  pose proof (generator_answer_nonempty (c :: q)) as Hgen.
  unfold chat_body.
  destruct (find_menu_topic menu_items (c :: q)) as [[|d topic]|].
  - destruct (find_in_knowledge_base kb (c :: q)) as [[|? ?]|]; simpl;
      try (by left);
      destruct (call_yandex_gpt net (c :: q)) as [s|e]; simpl; auto.
  - destruct (find_suggestion_answer _ (c :: q)) as [[|? ?]|]; simpl;
      try (by left);
      destruct (find_in_knowledge_base kb (c :: q)) as [[|? ?]|]; simpl;
      try (by left);
      destruct (call_yandex_gpt net (c :: q)) as [s|e]; simpl; auto.
  - destruct (find_in_knowledge_base kb (c :: q)) as [[|? ?]|]; simpl;
      try (by left);
      destruct (call_yandex_gpt net (c :: q)) as [s|e]; simpl; auto.
Qed.

(** X5.  The chat handler leaves the log as it is for an empty question
    and appends exactly one entry for any other: the stripped question,
    the source of the reply, and the text of the reply, or, when the
    handler caught an exception of the generator, the error text with the
    message of the exception, which the reply does not show. *)
Theorem chat_log_entry (log : list LogEntry) (message : str) :
  let q := str_strip message in
  let out := run_chat log message in
  match q with
  | [] => out.2 = log
  | _ =>
      ∃ logged,
        out.2 = log ++ [{| log_question := q; log_answer := logged;
                           log_source := source out.1 |}]
        ∧ (logged = response out.1
           ∨ ∃ e, call_yandex_gpt net q = Raise e
                  ∧ logged = CHAT_ERROR_LOG ++ exn_str e
                  ∧ response out.1 = CHAT_ERROR)
  end.
Proof.
  intros q out. subst q out. unfold chat.
  destruct (str_strip message) as [|c q]; [done|].
  unfold chat_body, log_interaction.
  destruct (find_menu_topic menu_items (c :: q)) as [[|d topic]|].
  - destruct (find_in_knowledge_base kb (c :: q)) as [[|? ?]|]; simpl;
      try (by eexists; split; [done|left]);
      destruct (call_yandex_gpt net (c :: q)) as [s|e]; simpl;
      try (by eexists; split; [done|left]);
      eexists; (split; [done|right]); by exists e.
  - destruct (find_suggestion_answer _ (c :: q)) as [[|? ?]|]; simpl;
      try (by eexists; split; [done|left]);
      destruct (find_in_knowledge_base kb (c :: q)) as [[|? ?]|]; simpl;
      try (by eexists; split; [done|left]);
      destruct (call_yandex_gpt net (c :: q)) as [s|e]; simpl;
      try (by eexists; split; [done|left]);
      eexists; (split; [done|right]); by exists e.
  - destruct (find_in_knowledge_base kb (c :: q)) as [[|? ?]|]; simpl;
      try (by eexists; split; [done|left]);
      destruct (call_yandex_gpt net (c :: q)) as [s|e]; simpl;
      try (by eexists; split; [done|left]);
      eexists; (split; [done|right]); by exists e.
Qed.

(** X6.  When the question resolves to a menu topic and a suggestion of
    that topic matches it with a non-empty answer, that answer is the
    reply, with source ["suggestion_map"] and the suggestions of the
    topic: the knowledge base and the generator are not consulted. *)
Theorem chat_suggestion_first (log : list LogEntry) (message : str)
    (topic found : str) :
  let q := str_strip message in
  let topic_suggestions := default [] (suggestionMap !! topic) in
  q ≠ [] → topic ≠ [] → found ≠ [] →
  find_menu_topic menu_items q = Some topic →
  find_suggestion_answer topic_suggestions q = Some found →
  run_chat log message
  = ({| response := found; source := SRC_SUGGESTION;
        suggestions := quick_reply <$> topic_suggestions |},
     log ++ [{| log_question := q; log_answer := found;
                log_source := SRC_SUGGESTION |}]).
Proof.
  intros q ts Hq Htopic Hfound Hmenu Hsug. subst q ts. unfold chat.
  destruct (str_strip message) as [|c q]; [done|].
  unfold chat_body. rewrite Hmenu.
  destruct topic as [|d topic]; [done|]. rewrite Hsug.
  by destruct found.
Qed.
End HandlerFacts.

Section AskFacts.
Context {U : UnicodeData}.
Context (kb : knowledge).
Context (net : network).

Local Arguments utf8 : simpl never.
Local Arguments app : simpl never.

(** X7.  [/ask] always answers, and never with an empty text unless the
    remote service answered an empty text; for a question that is not
    empty it appends one log entry with the answer; and an exception that
    escapes the generator is caught: its message is shown to the user
    after the error prefix and the entry has source ["error"]. *)
Theorem ask_answer (log : list LogEntry) (message : str) :
  let q := str_strip message in
  let out := ask kb net log message in
  (out.1 ≠ []
   ∨ ∃ i, (i < 3)%nat ∧ net q i = Response 200 (Text []))
  ∧ match q with
    | [] => out = (ASK_PROMPT, log)
    | _ =>
        ∃ src,
          out.2 = log ++ [{| log_question := q; log_answer := out.1;
                             log_source := src |}]
          ∧ (truthy (find_in_knowledge_base kb q) = false →
             ∀ e, call_yandex_gpt net q = Raise e →
                  out.1 = ASK_ERROR ++ exn_str e ∧ src = SRC_ERROR)
    end.
Proof.
  intros q out. subst q out. unfold ask.
  destruct (str_strip message) as [|c q];
    [split; [left; vm_compute; discriminate|done]|].
  assert (ASK_ERROR ≠ []) as Herr by (vm_compute; discriminate).
  pose proof (generator_answer_nonempty net (c :: q)) as Hgen.
  unfold log_interaction.
  destruct (find_in_knowledge_base kb (c :: q)) as [[|? ?]|]; simpl.
  - destruct (call_yandex_gpt net (c :: q)) as [s|e]; simpl.
    + split; [auto|]. eexists. split; [done|]. by intros _ e [=].
    + split; [left; by apply prefixed_nonempty|].
      eexists. split; [done|]. by intros _ e' [= ->].
  - split; [by left|]. eexists. split; [done|]. by intros [=].
  - destruct (call_yandex_gpt net (c :: q)) as [s|e]; simpl.
    + split; [auto|]. eexists. split; [done|]. by intros _ e [=].
    + split; [left; by apply prefixed_nonempty|].
      eexists. split; [done|]. by intros _ e' [= ->].
Qed.

(** X8.  When no menu button matches the question and the generator call
    does not raise, [/chat] and [/ask] give the same answer and write the
    same log entry. *)
Theorem chat_ask_agree (menu_items : list MenuItem)
    (suggestionMap : gmap str (list Suggestion))
    (log : list LogEntry) (message : str) :
  truthy (find_menu_topic menu_items (str_strip message)) = false →
  (∀ e, call_yandex_gpt net (str_strip message) ≠ Raise e) →
  response (chat menu_items suggestionMap kb net log message).1
  = (ask kb net log message).1
  ∧ (chat menu_items suggestionMap kb net log message).2
    = (ask kb net log message).2.
Proof.
  intros Htopic Hgen. unfold chat, ask.
  destruct (str_strip message) as [|c q]; [split; cbn; reflexivity|].
  unfold chat_body.
  destruct (find_menu_topic menu_items (c :: q)) as [[|? ?]|];
    try discriminate;
    destruct (find_in_knowledge_base kb (c :: q)) as [[|? ?]|]; simpl;
    try (split; reflexivity);
    destruct (call_yandex_gpt net (c :: q)) as [s|e] eqn:Hcall; simpl;
    try (split; reflexivity); destruct (Hgen e); reflexivity.
Qed.

(** X9.  [/voice-ask] looks up and asks the generator about the question
    in lower case: when lower-casing leaves no white space at the ends
    and the generator call does not raise, its answer is the answer of
    [/ask] to the lower-cased question, and its log entry differs only by
    the tag before the question. *)
Theorem voice_ask_as_ask (log : list LogEntry) (message : str) :
  let q := str_lower (str_strip message) in
  q ≠ [] → str_strip q = q →
  (∀ e, call_yandex_gpt net q ≠ Raise e) →
  (voice_ask kb net log message).1 = (ask kb net log q).1
  ∧ ∃ src,
      (ask kb net log q).2
      = log ++ [{| log_question := q;
                   log_answer := (ask kb net log q).1;
                   log_source := src |}]
      ∧ (voice_ask kb net log message).2
        = log ++ [{| log_question := VOICE_TAG ++ q;
                     log_answer := (ask kb net log q).1;
                     log_source := src |}].
Proof.
  intros q Hq Hstrip Hgen. unfold voice_ask, ask. fold q. rewrite Hstrip.
  destruct q as [|c q'] eqn:Eq; [done|]. unfold log_interaction.
  destruct (find_in_knowledge_base kb (c :: q')) as [[|? ?]|]; simpl;
    try (split; [reflexivity|eexists; split; reflexivity]);
    destruct (call_yandex_gpt net (c :: q')) as [s|e] eqn:Hcall; simpl;
    try (split; [reflexivity|eexists; split; reflexivity]);
    destruct (Hgen e); reflexivity.
Qed.
End AskFacts.

Lemma chat_suggestion_first_witness :
  chat menu_vr topics_vr kb_greetings net_unauthorized [] (utf8 " VR! ")
  = ({| response := utf8 "VR-игры!"; source := SRC_SUGGESTION;
        suggestions := [(utf8 "Игры", utf8 "vr")] |},
     [{| log_question := utf8 "VR!"; log_answer := utf8 "VR-игры!";
         log_source := SRC_SUGGESTION |}]).
Proof.
  apply (chat_suggestion_first menu_vr topics_vr kb_greetings
           net_unauthorized [] (utf8 " VR! ") (utf8 "vr") (utf8 "VR-игры!"));
    by vm_compute.
Defined.

Lemma chat_ask_agree_witness :
  response (chat menu_vr topics_vr kb_greetings net_unauthorized []
              (utf8 "Привет")).1
  = (ask kb_greetings net_unauthorized [] (utf8 "Привет")).1
  ∧ (chat menu_vr topics_vr kb_greetings net_unauthorized []
       (utf8 "Привет")).2
    = (ask kb_greetings net_unauthorized [] (utf8 "Привет")).2.
Proof.
  apply chat_ask_agree; [by vm_compute|].
  intros e. vm_compute. discriminate.
Defined.

Lemma voice_ask_as_ask_witness :
  (voice_ask kb_greetings net_unauthorized [] (utf8 " ПРИВЕТ ")).1
  = (ask kb_greetings net_unauthorized [] (utf8 "привет")).1.
Proof.
  destruct (voice_ask_as_ask kb_greetings net_unauthorized []
              (utf8 " ПРИВЕТ ")) as [Hanswer _].
  - vm_compute. discriminate.
  - by vm_compute.
  - intros e. vm_compute. discriminate.
  - exact Hanswer.
Defined.

(** ** Editing the knowledge base *)

Section DictFacts.
Implicit Types (kb : knowledge) (k v : str).

Lemma dict_get_set_eq kb k v : dict_get (dict_set kb k v) k = Some v.
Proof.
  induction kb as [|[k' w] kb IH]; simpl.
  - by rewrite bool_decide_eq_true_2.
  - case_bool_decide as Hk; simpl.
    + by rewrite bool_decide_eq_true_2.
    + by rewrite bool_decide_eq_false_2.
Qed.

Lemma dict_get_set_ne kb k v k' :
  k' ≠ k → dict_get (dict_set kb k v) k' = dict_get kb k'.
Proof.
  intros Hne. induction kb as [|[k0 w] kb IH]; simpl.
  - by rewrite bool_decide_eq_false_2.
  - case_bool_decide as Hk; simpl.
    + subst k0. by rewrite !bool_decide_eq_false_2.
    + by rewrite IH.
Qed.

Lemma dict_set_fresh kb k v : k ∉ kb.*1 → dict_set kb k v = kb ++ [(k, v)].
Proof.
  induction kb as [|[k0 w] kb IH]; simpl; [done|].
  intros [Hne Hk]%not_elem_of_cons.
  by rewrite bool_decide_eq_false_2, IH.
Qed.

Lemma dict_set_keys kb k v :
  (dict_set kb k v).*1 = if bool_decide (k ∈ kb.*1) then kb.*1
                         else kb.*1 ++ [k].
Proof.
  induction kb as [|[k0 w] kb IH]; [done|]. cbn [dict_set].
  destruct (bool_decide_reflect (k0 = k)) as [->|Hk0];
    rewrite !fmap_cons; cbn [fst].
  - rewrite bool_decide_eq_true_2; [done|by left].
  - rewrite IH. destruct (bool_decide_reflect (k ∈ kb.*1)) as [Hin|Hin].
    + rewrite bool_decide_eq_true_2; [done|by right].
    + rewrite bool_decide_eq_false_2; [done|].
      by intros [?|?]%elem_of_cons.
Qed.

Lemma dict_wf_set kb k v : dict_wf kb → dict_wf (dict_set kb k v).
Proof.
  unfold dict_wf. intros Hwf. rewrite dict_set_keys.
  case_bool_decide as Hin; [done|].
  apply NoDup_app. split; [done|]. split; [|apply NoDup_singleton].
  intros x Hx ->%list_elem_of_singleton. done.
Qed.

Lemma dict_del_keys_subset kb k k' : k' ∈ (dict_del kb k).*1 → k' ∈ kb.*1.
Proof.
  induction kb as [|[k0 w] kb IH]; simpl; [done|].
  case_bool_decide; simpl; [by right|].
  intros [->|Hin]%elem_of_cons; [by left|right; by apply IH].
Qed.

Lemma dict_wf_del kb k : dict_wf kb → dict_wf (dict_del kb k).
Proof.
  unfold dict_wf. induction kb as [|[k0 w] kb IH]; simpl; [done|].
  intros [Hk0 Hkb]%NoDup_cons. case_bool_decide; simpl; [done|].
  apply NoDup_cons. split; [|by apply IH].
  intros Hin. by apply Hk0, (dict_del_keys_subset kb k).
Qed.

Lemma dict_del_absent kb k : dict_wf kb → k ∉ (dict_del kb k).*1.
Proof.
  unfold dict_wf. induction kb as [|[k0 w] kb IH]; simpl.
  - intros _. apply not_elem_of_nil.
  - intros [Hk0 Hkb]%NoDup_cons. case_bool_decide as Hk; simpl.
    + by subst k0.
    + apply not_elem_of_cons. split; [done|by apply IH].
Qed.

Lemma dict_get_del_ne kb k k' :
  k' ≠ k → dict_get (dict_del kb k) k' = dict_get kb k'.
Proof.
  intros Hne. induction kb as [|[k0 w] kb IH]; simpl; [done|].
  case_bool_decide as Hk; simpl.
  - subst k0. by rewrite bool_decide_eq_false_2.
  - by rewrite IH.
Qed.

Lemma dict_del_fresh kb k : k ∉ kb.*1 → dict_del kb k = kb.
Proof.
  induction kb as [|[k0 w] kb IH]; simpl; [done|].
  intros [Hne Hk]%not_elem_of_cons.
  by rewrite bool_decide_eq_false_2, IH.
Qed.

Lemma dict_del_set_fresh kb k v :
  k ∉ kb.*1 → dict_del (dict_set kb k v) k = kb.
Proof.
  induction kb as [|[k0 w] kb IH]; simpl.
  - intros _. by rewrite bool_decide_eq_true_2.
  - intros [Hne Hk]%not_elem_of_cons.
    rewrite bool_decide_eq_false_2 by done. simpl.
    by rewrite bool_decide_eq_false_2, IH.
Qed.

Lemma dict_del_length kb k w :
  dict_get kb k = Some w → S (length (dict_del kb k)) = length kb.
Proof.
  induction kb as [|[k0 w0] kb IH]; simpl; [done|].
  case_bool_decide; simpl; [done|]. intros Hget. by rewrite IH.
Qed.

Lemma dict_get_is_Some kb k : is_Some (dict_get kb k) ↔ k ∈ kb.*1.
Proof.
  induction kb as [|[k0 w] kb IH]; simpl.
  - split; [by intros [? ?]|by intros ?%elem_of_nil].
  - case_bool_decide as Hk.
    + subst k0. split; [by left|by eexists].
    + rewrite IH. split; [by right|].
      by intros [?|?]%elem_of_cons.
Qed.
End DictFacts.

Section KnowledgeAdminFacts.
Context {U : UnicodeData}.

(** X10.  After [add_knowledge_item(question, answer)] the lookup of the
    stored key, the question stripped and lower-cased, gives the stripped
    answer; every other key keeps its value; a key that was in the base
    keeps its place in the iteration order and a new one goes last; the
    keys stay distinct; and the function reports success. *)
Theorem add_knowledge_item_lookup (kb : knowledge) (question answer : str) :
  let key := str_lower (str_strip question) in
  let kb' := (add_knowledge_item kb question answer).1 in
  find_in_knowledge_base kb' key = Some (str_strip answer)
  ∧ (∀ k, k ≠ key → dict_get kb' k = dict_get kb k)
  ∧ kb'.*1 = (if bool_decide (key ∈ kb.*1) then kb.*1 else kb.*1 ++ [key])
  ∧ (dict_wf kb → dict_wf kb')
  ∧ (add_knowledge_item kb question answer).2 = true.
Proof.
  intros key kb'. subst kb'. unfold add_knowledge_item. simpl. fold key.
  repeat split.
  - unfold find_in_knowledge_base. by rewrite dict_get_set_eq.
  - intros k Hk. by apply dict_get_set_ne.
  - apply dict_set_keys.
  - apply dict_wf_set.
Qed.

(** X11.  [delete_knowledge_item(question)] on a question that is not a
    key, as written, changes nothing and answers [False]; on a key it
    removes that entry and no other, keeps the keys distinct, and answers
    whether the file could be written. *)
Theorem delete_knowledge_item_effect (write_ok : bool) (kb : knowledge)
    (question : str) :
  dict_wf kb →
  let out := delete_knowledge_item write_ok kb question in
  match dict_get kb question with
  | None => out = (kb, false)
  | Some _ =>
      out.2 = write_ok
      ∧ dict_get out.1 question = None
      ∧ (∀ k, k ≠ question → dict_get out.1 k = dict_get kb k)
      ∧ S (length out.1) = length kb
      ∧ dict_wf out.1
  end.
Proof.
  intros Hwf out. subst out. unfold delete_knowledge_item.
  destruct (dict_get kb question) as [w|] eqn:Hget; [|done]. simpl.
  repeat split.
  - apply dict_get_None. by apply dict_del_absent.
  - intros k Hk. by apply dict_get_del_ne.
  - by apply (dict_del_length kb question w).
  - by apply dict_wf_del.
Qed.

(** X12.  Adding an entry under a key that is new and deleting that key
    gives the base back as it was. *)
Theorem add_then_delete (write_ok : bool) (kb : knowledge)
    (question answer : str) :
  let key := str_lower (str_strip question) in
  key ∉ kb.*1 →
  delete_knowledge_item write_ok (add_knowledge_item kb question answer).1 key
  = (kb, write_ok).
Proof.
  intros key Hnew. unfold delete_knowledge_item, add_knowledge_item. simpl.
  fold key. rewrite dict_get_set_eq. by rewrite dict_del_set_fresh.
Qed.

(** X13.  [update_knowledge_item] on a key of the base whose new key is
    the same key or a key not yet in the base moves the entry to the end
    of the iteration order, which the lookup follows: the result is the
    base without the old entry, then the new entry. *)
Theorem update_knowledge_item_moves_last (kb : knowledge)
    (old_question new_question answer : str) :
  let key := str_lower (str_strip new_question) in
  dict_wf kb → old_question ∈ kb.*1 →
  key = old_question ∨ key ∉ kb.*1 →
  (update_knowledge_item kb old_question new_question answer).1
  = dict_del kb old_question ++ [(key, str_strip answer)].
Proof.
  intros key Hwf Hold Hkey. unfold update_knowledge_item. simpl. fold key.
  apply dict_get_is_Some in Hold as [w ->].
  apply dict_set_fresh. destruct Hkey as [->|Hnew].
  - by apply dict_del_absent.
  - intros Hin. by apply Hnew, (dict_del_keys_subset kb old_question).
Qed.
End KnowledgeAdminFacts.

Section ImportFacts.
Context {U : UnicodeData}.

Lemma import_loop_counts (kb : knowledge) items success_count error_count :
  ∃ kb',
    import_loop kb items success_count error_count
    = (kb', (success_count + length (List.filter importable items))%nat,
       error_count)
    ∧ (dict_wf kb → dict_wf kb')
    ∧ (∀ k, k ∈ kb.*1 → k ∈ kb'.*1)
    ∧ (∀ q a, (q, a) ∈ items → importable (q, a) = true →
              str_lower (str_strip q) ∈ kb'.*1).
Proof.
  revert kb success_count error_count.
  induction items as [|[q a] items IH]; intros kb s e.
  { exists kb. rewrite Nat.add_0_r. repeat split; try done.
    by intros ? ? ?%elem_of_nil. }
  assert (∀ k v, k ∈ (dict_set kb (str_lower (str_strip q)) v).*1
                 ↔ k ∈ kb.*1 ∨ k = str_lower (str_strip q)) as Hkeys.
  { intros k v. rewrite dict_set_keys. case_bool_decide as Hin.
    - split; [by left|]. by intros [?| ->].
    - rewrite elem_of_app, list_elem_of_singleton. done. }
  destruct q as [|c q]; [|destruct a as [|d a]].
  - destruct (IH kb s e) as (kb' & Heq & Hwf & Hold & Hnew).
    exists kb'. simpl. rewrite Heq. repeat split; try done.
    intros q' a' [[= -> ->]|Hin]%elem_of_cons Himp; [done|]. eauto.
  - destruct (IH kb s e) as (kb' & Heq & Hwf & Hold & Hnew).
    exists kb'. simpl. rewrite Heq. repeat split; try done.
    intros q' a' [[= -> ->]|Hin]%elem_of_cons Himp; [done|]. eauto.
  - destruct (IH (dict_set kb (str_lower (str_strip (c :: q)))
                    (str_strip (d :: a))) (S s) e)
      as (kb' & Heq & Hwf & Hold & Hnew).
    exists kb'. cbn [import_loop add_knowledge_item]. rewrite Heq.
    cbn [List.filter importable length]. rewrite Nat.add_succ_r.
    repeat split; try done.
    + intros Hkb. by apply Hwf, dict_wf_set.
    + intros k Hk. apply Hold, Hkeys. by left.
    + intros q' a' [[= -> ->]|Hin]%elem_of_cons Himp; [|eauto].
      apply Hold, Hkeys. by right.
Qed.

(** X14.  [import_knowledge] refuses a request without an admin session
    and an empty object, leaving the base as it is.  Otherwise it counts
    as successes exactly the entries whose question and answer are both
    non-empty and never counts an error; afterwards the stored key of
    every such entry is a key of the base, no earlier key is lost, and the
    keys are still distinct. *)
Theorem import_knowledge_counts (kb : knowledge) (data : list (str * str)) :
  import_knowledge false kb data = (kb, ImportForbidden)
  ∧ import_knowledge true kb [] = (kb, ImportInvalid)
  ∧ (data ≠ [] →
     ∃ kb',
       import_knowledge true kb data
       = (kb', ImportDone (length (List.filter importable data)) 0)
       ∧ (dict_wf kb → dict_wf kb')
       ∧ (∀ k, k ∈ kb.*1 → k ∈ kb'.*1)
       ∧ (∀ q a, (q, a) ∈ data → q ≠ [] → a ≠ [] →
                 str_lower (str_strip q) ∈ kb'.*1)).
Proof.
  repeat split. intros Hdata.
  destruct (import_loop_counts kb data 0 0) as (kb' & Heq & Hwf & Hold & Hnew).
  exists kb'. unfold import_knowledge.
  destruct data as [|entry data]; [done|]. cbn [negb]. rewrite Heq.
  repeat split; try done.
  intros q a Hin Hq Ha. apply (Hnew q a Hin). by destruct q, a.
Qed.

(** X15.  [search_knowledge] without a database answers, in the order of
    the base, exactly the entries whose question contains the query, both
    lower-cased; the empty query answers the whole base. *)
Theorem search_knowledge_results (kb : knowledge) (query : str) :
  search_knowledge kb query `sublist_of` kb
  ∧ (∀ q a, (q, a) ∈ search_knowledge kb query
            ↔ (q, a) ∈ kb ∧ str_in (str_lower query) (str_lower q) = true)
  ∧ search_knowledge kb [] = kb.
Proof.
  repeat split.
  - induction kb as [|[q a] kb IH]; simpl; [done|].
    destruct (str_in _ _); by constructor.
  - revert H. induction kb as [|[q' a'] kb IH]; simpl.
    + by intros ?%elem_of_nil.
    + destruct (str_in _ (str_lower q')) eqn:E.
      * intros [[= -> ->]|Hin]%elem_of_cons; [by left|].
        right. by apply IH.
      * intros Hin. right. by apply IH.
  - revert H. induction kb as [|[q' a'] kb IH]; simpl.
    + by intros ?%elem_of_nil.
    + destruct (str_in _ (str_lower q')) eqn:E.
      * intros [[= -> ->]|Hin]%elem_of_cons; [done|]. by apply IH.
      * intros Hin. by apply IH.
  - intros [Hin Hq]. induction kb as [|[q' a'] kb IH]; simpl.
    + by apply elem_of_nil in Hin.
    + apply elem_of_cons in Hin as [[= <- <-]|Hin].
      * rewrite Hq. by left.
      * destruct (str_in _ (str_lower q')); [right|]; by apply IH.
  - induction kb as [|[q a] kb IH]; [done|].
    cbn [search_knowledge]. change (str_lower []) with (@nil N).
    by rewrite str_in_empty, IH.
Qed.
End ImportFacts.

Lemma delete_knowledge_item_effect_witness :
  delete_knowledge_item true kb_greetings (utf8 "Привет") = (kb_greetings, false)
  ∧ (delete_knowledge_item true kb_greetings (utf8 "привет")).1
    = [(utf8 "Привет!", utf8 "A")].
Proof.
  assert (dict_wf kb_greetings) as Hwf
    by (apply (bool_decide_unpack _); vm_compute; exact I).
  split.
  - exact (delete_knowledge_item_effect true kb_greetings (utf8 "Привет") Hwf).
  - by vm_compute.
Defined.

Lemma add_then_delete_witness :
  delete_knowledge_item true
    (add_knowledge_item kb_greetings (utf8 " Часы работы? ") (utf8 "9-18")).1
    (str_lower (str_strip (utf8 " Часы работы? ")))
  = (kb_greetings, true).
Proof.
  apply (add_then_delete true kb_greetings (utf8 " Часы работы? ")).
  apply (bool_decide_unpack _). vm_compute. exact I.
Defined.

Lemma update_knowledge_item_moves_last_witness :
  (update_knowledge_item kb_greetings (utf8 "привет") (utf8 "привет")
     (utf8 "C")).1
  = [(utf8 "Привет!", utf8 "A"); (utf8 "привет", utf8 "C")].
Proof.
  rewrite (update_knowledge_item_moves_last kb_greetings (utf8 "привет")
             (utf8 "привет") (utf8 "C")).
  - by vm_compute.
  - apply (bool_decide_unpack _). vm_compute. exact I.
  - apply list_elem_of_here.
  - left. by vm_compute.
Defined.

Lemma import_knowledge_counts_witness :
  ∃ kb',
    import_knowledge true kb_greetings
      [(utf8 "Цена", utf8 "100"); (utf8 "пусто", [])]
    = (kb', ImportDone 1 0).
Proof.
  destruct (import_knowledge_counts kb_greetings
              [(utf8 "Цена", utf8 "100"); (utf8 "пусто", [])])
    as (_ & _ & Hdone).
  destruct (Hdone ltac:(discriminate)) as (kb' & Heq & _).
  by exists kb'.
Defined.

(** ** Editing the menu *)

Section MenuFacts.
Context {U : UnicodeData}.

Lemma NoDup_insert_fresh {A} (l : list A) i x :
  NoDup l → (∀ j y, l !! j = Some y → j ≠ i → y ≠ x) → NoDup (<[i:=x]> l).
Proof.
  intros Hl Hfresh. apply NoDup_alt. intros a b z Ha Hb.
  apply list_lookup_insert_Some in Ha as [(Hia & Hxz & Hlen)|[Hne Ha]];
    apply list_lookup_insert_Some in Hb as [(Hib & Hxz' & Hlen')|[Hne' Hb]].
  - congruence.
  - destruct (Hfresh b z Hb); congruence.
  - destruct (Hfresh a z Ha); congruence.
  - by apply (proj1 (NoDup_alt l) Hl a b z).
Qed.

Lemma existsb_false_Forall {A} (p : A → bool) l :
  existsb p l = false → Forall (λ x, p x = false) l.
Proof.
  induction l as [|x l IH]; simpl; [done|].
  intros [Hx Hl]%orb_false_iff. constructor; [done|by apply IH].
Qed.

Lemma NoDup_fmap_snoc {A} (f : A → str) (l : list A) x :
  NoDup (f <$> l) →
  existsb (λ y, bool_decide (f y = f x)) l = false →
  NoDup (f <$> (l ++ [x])).
Proof.
  intros Hl Hx%existsb_false_Forall. rewrite fmap_app.
  apply NoDup_app. split; [done|]. split; [|apply NoDup_singleton].
  intros y Hy ->%list_elem_of_singleton.
  apply list_elem_of_fmap in Hy as (z & Hz & Hin).
  rewrite Forall_forall in Hx. specialize (Hx z Hin).
  by apply bool_decide_eq_false in Hx.
Qed.

Lemma edit_clash_None i items index new_item :
  edit_clash i items index new_item = None →
  ∀ j y, items !! j = Some y → (i + j)%nat ≠ index →
         admin_text y ≠ admin_text new_item
         ∧ button_question y ≠ button_question new_item.
Proof.
  revert i. induction items as [|item rest IH]; intros i; simpl; [done|].
  destruct (Nat.eqb_spec i index) as [->|Hi].
  - intros Hrest [|j] y Hy Hj; simpl in Hy.
    + lia.
    + apply (IH _ Hrest j y Hy). lia.
  - destruct (bool_decide_reflect (admin_text item = admin_text new_item));
      [done|].
    destruct (bool_decide_reflect
                (button_question item = button_question new_item)); [done|].
    intros Hrest [|j] y Hy Hj; simpl in Hy.
    + by injection Hy as <-.
    + apply (IH _ Hrest j y Hy). lia.
Qed.

(** X16.  The three menu operations keep the questions of the buttons
    distinct and their admin texts distinct. *)
Theorem menu_operations_keep_unique (admin_logged_in : bool) (index : nat)
    (form : MenuForm) (menu_items : list MenuButton) :
  menu_wf menu_items →
  menu_wf (add_menu_item admin_logged_in form menu_items).1
  ∧ menu_wf (edit_menu_item admin_logged_in index form menu_items).1
  ∧ menu_wf (delete_menu_item admin_logged_in index menu_items).1.
Proof.
  intros [Hq Ht]. repeat split.
  - unfold add_menu_item. destruct admin_logged_in; simpl; [|done].
    destruct (missing_field _); [done|].
    destruct (existsb _ menu_items) eqn:Htext; [done|].
    destruct (existsb _ menu_items) eqn:Hquestion in |- *; [done|].
    simpl. by apply NoDup_fmap_snoc.
  - unfold add_menu_item. destruct admin_logged_in; simpl; [|done].
    destruct (missing_field _); [done|].
    destruct (existsb _ menu_items) eqn:Htext; [done|].
    destruct (existsb _ menu_items) eqn:Hquestion in |- *; [done|].
    simpl. by apply NoDup_fmap_snoc.
  - unfold edit_menu_item. destruct admin_logged_in; simpl; [|done].
    destruct (_ <? _)%nat; simpl; [|done].
    destruct (missing_field _); [done|].
    destruct (edit_clash _ _ _ _) eqn:Hclash; [done|]. simpl.
    rewrite list_fmap_insert. apply NoDup_insert_fresh; [done|].
    intros j y Hy Hj.
    apply list_lookup_fmap_Some in Hy as (b & -> & Hb).
    by apply (edit_clash_None 0 menu_items index _ Hclash j b Hb).
  - unfold edit_menu_item. destruct admin_logged_in; simpl; [|done].
    destruct (_ <? _)%nat; simpl; [|done].
    destruct (missing_field _); [done|].
    destruct (edit_clash _ _ _ _) eqn:Hclash; [done|]. simpl.
    rewrite list_fmap_insert. apply NoDup_insert_fresh; [done|].
    intros j y Hy Hj.
    apply list_lookup_fmap_Some in Hy as (b & -> & Hb).
    by apply (edit_clash_None 0 menu_items index _ Hclash j b Hb).
  - unfold delete_menu_item. destruct admin_logged_in; simpl; [|done].
    destruct (_ <? _)%nat; simpl; [|done].
    rewrite list_fmap_delete.
    eapply sublist_NoDup; [|apply sublist_delete]; done.
  - unfold delete_menu_item. destruct admin_logged_in; simpl; [|done].
    destruct (_ <? _)%nat; simpl; [|done].
    rewrite list_fmap_delete.
    eapply sublist_NoDup; [|apply sublist_delete]; done.
Qed.

(** X17.  A button that [add_menu_item] accepted is the last of the menu,
    with a question that is not empty; the chat handler resolves a
    question that normalizes like the button's to the button's topic,
    unless an older button normalizes alike. *)
Theorem add_menu_item_resolved (form : MenuForm)
    (menu_items : list MenuButton) (q : str) :
  let new_item := button_of_form form in
  (add_menu_item true form menu_items).2 = Accepted →
  (add_menu_item true form menu_items).1 = menu_items ++ [new_item]
  ∧ button_question new_item ≠ []
  ∧ (normalize_text (Some (button_question new_item))
     = normalize_text (Some q) →
     (∀ b, b ∈ menu_items →
           normalize_text (Some (button_question b))
           ≠ normalize_text (Some q)) →
     find_menu_topic
       (menu_item_of <$> (add_menu_item true form menu_items).1) q
     = Some (button_topic new_item)).
Proof.
  intros new_item. unfold add_menu_item. cbn [negb]. fold new_item.
  clearbody new_item.
  destruct (missing_field new_item) eqn:Hmissing; [done|].
  destruct (existsb _ menu_items); [done|].
  destruct (existsb _ menu_items); [done|]. intros _. cbn [fst].
  repeat split.
  - unfold missing_field in Hmissing.
    apply orb_false_iff in Hmissing as [_ Hq].
    intros Heq. by rewrite Heq in Hq.
  - intros Hnew Hold. rewrite fmap_app.
    apply (find_menu_topic_first _ (menu_item_of new_item) []); [|done].
    intros i (b & -> & Hb)%list_elem_of_fmap. by apply Hold.
Qed.

(** X18.  [edit_menu_item] and [delete_menu_item] refuse an index that is
    not a position of the menu and leave the menu as it is; on a position,
    deleting removes that button only, and an accepted edit replaces that
    button only. *)
Theorem menu_index_bounds (index : nat) (form : MenuForm)
    (menu_items : list MenuButton) :
  ((length menu_items ≤ index)%nat →
   edit_menu_item true index form menu_items
   = (menu_items, Refused ERR_INDEX)
   ∧ delete_menu_item true index menu_items
     = (menu_items, Refused ERR_INDEX_FLASH))
  ∧ ((index < length menu_items)%nat →
     delete_menu_item true index menu_items
     = (take index menu_items ++ drop (S index) menu_items, Accepted)
     ∧ ((edit_menu_item true index form menu_items).2 = Accepted →
        (edit_menu_item true index form menu_items).1
        = take index menu_items ++ button_of_form form
          :: drop (S index) menu_items)).
Proof.
  unfold edit_menu_item, delete_menu_item. simpl. split.
  - intros Hge. apply Nat.ltb_ge in Hge. by rewrite Hge.
  - intros Hlt. pose proof Hlt as Hlt'. apply Nat.ltb_lt in Hlt'.
    rewrite Hlt'. simpl. split; [by rewrite delete_take_drop|].
    destruct (missing_field _); [done|].
    destruct (edit_clash _ _ _ _); [done|]. intros _. simpl.
    by apply insert_take_drop.
Qed.
End MenuFacts.

(** ** Editing the suggestions *)

Section SuggestionFacts.
Context {U : UnicodeData}.
Context (unquote : str → str).
Implicit Types (sm : gmap str (list Suggestion)).

Lemma labels_unique_with_topic sm topic :
  labels_unique sm → labels_unique (with_topic sm topic).
Proof.
  intros Hsm. unfold with_topic.
  destruct (sm !! topic) eqn:Htopic; [done|].
  intros t l. destruct (decide (t = topic)) as [->|Hne].
  - rewrite lookup_insert_eq. intros [= <-]. apply NoDup_nil_2.
  - rewrite lookup_insert_ne by done. apply Hsm.
Qed.

Lemma labels_unique_insert sm topic l :
  labels_unique sm → NoDup (text <$> l) →
  labels_unique (<[topic := l]> sm).
Proof.
  intros Hsm Hl t l'. destruct (decide (t = topic)) as [->|Hne].
  - rewrite lookup_insert_eq. by intros [= <-].
  - rewrite lookup_insert_ne by done. apply Hsm.
Qed.

Lemma labels_unique_default sm topic :
  labels_unique sm → NoDup (text <$> default [] (sm !! topic)).
Proof.
  intros Hsm. destruct (sm !! topic) as [l|] eqn:Hl; simpl.
  - by apply (Hsm topic).
  - apply NoDup_nil_2.
Qed.

Lemma elem_of_List_filter {A} (p : A → bool) (l : list A) x :
  x ∈ List.filter p l ↔ x ∈ l ∧ p x = true.
Proof. by rewrite !list_elem_of_In, List.filter_In. Qed.

Lemma List_filter_sublist {A} (p : A → bool) (l : list A) :
  List.filter p l `sublist_of` l.
Proof.
  induction l as [|x l IH]; simpl; [done|]. destruct (p x); by constructor.
Qed.

Lemma NoDup_fmap_filter {A} (f : A → str) (p : A → bool) (l : list A) :
  NoDup (f <$> l) → NoDup (f <$> List.filter p l).
Proof.
  induction l as [|x l IH]; simpl; [done|].
  intros [Hx Hl]%NoDup_cons. destruct (p x); [|by apply IH].
  rewrite fmap_cons. apply NoDup_cons. split; [|by apply IH].
  intros (y & Hy & Hin)%list_elem_of_fmap. apply Hx.
  apply list_elem_of_fmap. exists y. split; [done|].
  apply list_elem_of_In. apply list_elem_of_In in Hin.
  by apply List.filter_In in Hin as [? _].
Qed.

(** X19.  [add_suggestion] and [delete_suggestion] keep the labels of the
    suggestions distinct within every topic. *)
Theorem suggestion_labels_stay_unique (admin_logged_in : bool)
    (form : SuggestionForm) (topic label : str) sm :
  labels_unique sm →
  labels_unique (add_suggestion admin_logged_in form sm).1
  ∧ labels_unique (delete_suggestion unquote admin_logged_in topic label sm).1.
Proof.
  intros Hsm. split.
  - unfold add_suggestion. destruct admin_logged_in; simpl; [|done].
    destruct (cleaned_form form) as [[t new_suggestion]|]; [|done].
    destruct (blank_field t new_suggestion); [done|].
    pose proof (labels_unique_with_topic sm t Hsm) as Hsm'.
    destruct (existsb _ _) eqn:Hdup; simpl; [done|].
    apply labels_unique_insert; [done|].
    apply NoDup_fmap_snoc; [|done]. by apply labels_unique_default.
  - unfold delete_suggestion. destruct admin_logged_in; simpl; [|done].
    destruct (sm !! topic) as [current|] eqn:Hcurrent; simpl; [|done].
    apply labels_unique_insert; [done|].
    apply NoDup_fmap_filter. by apply (Hsm topic).
Qed.

Lemma str_lower_idempotent (OK : unicode_ok U) s :
  str_lower (str_lower s) = str_lower s.
Proof. unfold str_lower. apply lower_from_lowered, (lower_from_Forall OK). Qed.

(** X20.  A suggestion that [add_suggestion] accepted is the last of its
    topic, stored under the topic name stripped and lower-cased, and
    [get_suggestions_by_topic] asked for that name answers the topic's
    list with the new suggestion, not the default one. *)
Theorem add_suggestion_served (form : SuggestionForm) sm
    (topic : str) (new_suggestion : Suggestion) :
  unicode_ok U →
  cleaned_form form = Some (topic, new_suggestion) →
  (add_suggestion true form sm).2 = Accepted →
  let sm' := (add_suggestion true form sm).1 in
  sm' !! topic = Some (default [] (sm !! topic) ++ [new_suggestion])
  ∧ get_suggestions_by_topic sm' topic
    = default [] (sm !! topic) ++ [new_suggestion]
  ∧ (∀ t, t ≠ topic → sm' !! t = sm !! t).
Proof.
  intros OK Hform. unfold add_suggestion. simpl. rewrite Hform.
  destruct (blank_field topic new_suggestion); [done|].
  assert (default [] (with_topic sm topic !! topic)
          = default [] (sm !! topic)) as Hcurrent.
  { unfold with_topic. destruct (sm !! topic) eqn:E; [by rewrite E|].
    by rewrite lookup_insert_eq. }
  rewrite Hcurrent. destruct (existsb _ _); [done|]. intros _. simpl.
  assert (str_lower topic = topic) as Hlower.
  { unfold cleaned_form in Hform.
    destruct (form_topic form), (form_text form), (form_trigger form),
      (form_answer form); try done.
    injection Hform as <- _. by apply str_lower_idempotent. }
  repeat split.
  - by rewrite lookup_insert_eq.
  - unfold get_suggestions_by_topic. rewrite Hlower, lookup_insert_eq.
    simpl. by destruct (default [] (sm !! topic)).
  - intros t Ht. rewrite lookup_insert_ne by done.
    unfold with_topic. destruct (sm !! topic); [done|].
    by rewrite lookup_insert_ne.
Qed.

(** X21.  [delete_suggestion] on a topic of the map removes from it the
    suggestions with the given label and no other, keeps the order of the
    rest, never removes the topic itself, which may be left with an empty
    list, and touches no other topic; on a name that is not a topic it
    changes nothing. *)
Theorem delete_suggestion_effect (topic label : str) sm :
  let sm' := (delete_suggestion unquote true topic label sm).1 in
  match sm !! topic with
  | None => sm' = sm
  | Some current =>
      ∃ rest,
        sm' !! topic = Some rest
        ∧ rest `sublist_of` current
        ∧ (∀ s, s ∈ rest ↔ s ∈ current ∧ text s ≠ unquote label)
        ∧ (∀ t, t ≠ topic → sm' !! t = sm !! t)
  end.
Proof.
  unfold delete_suggestion. simpl.
  destruct (sm !! topic) as [current|] eqn:Hcurrent; simpl; [|done].
  eexists. split; [by rewrite lookup_insert_eq|].
  split; [apply List_filter_sublist|]. split.
  - intros s. rewrite elem_of_List_filter, negb_true_iff.
    by rewrite bool_decide_eq_false.
  - intros t Ht. by rewrite lookup_insert_ne.
Qed.
End SuggestionFacts.

Section SuggestionCount.
Context {U : UnicodeData}.
Context (unquote : str → str).
Implicit Types (sm : gmap str (list Suggestion)).

Lemma suggestion_count_insert_fresh sm topic l :
  sm !! topic = None →
  suggestion_count (<[topic := l]> sm) = (length l + suggestion_count sm)%nat.
Proof.
  intros Hfresh. unfold suggestion_count.
  by rewrite (map_to_list_insert sm topic l Hfresh).
Qed.

Lemma suggestion_count_insert sm topic l :
  (suggestion_count (<[topic := l]> sm) + length (default [] (sm !! topic))
   = length l + suggestion_count sm)%nat.
Proof.
  destruct (sm !! topic) as [l0|] eqn:Hl0; simpl.
  - rewrite <- (insert_delete_eq sm topic l).
    rewrite suggestion_count_insert_fresh by apply lookup_delete_eq.
    rewrite <- (insert_delete_id sm topic l0 Hl0) at 2.
    rewrite suggestion_count_insert_fresh by apply lookup_delete_eq. lia.
  - rewrite suggestion_count_insert_fresh by done. lia.
Qed.

Lemma suggestion_count_with_topic sm topic :
  suggestion_count (with_topic sm topic) = suggestion_count sm.
Proof.
  unfold with_topic. destruct (sm !! topic) eqn:E; [done|].
  by rewrite suggestion_count_insert_fresh.
Qed.

Lemma label_index_Some label (l : list Suggestion) i :
  label_index label l = Some i →
  (i < length l)%nat ∧ ∃ s, l !! i = Some s ∧ text s = label.
Proof.
  revert i. induction l as [|s l IH]; intros i; simpl; [done|].
  destruct (bool_decide_reflect (text s = label)) as [Hs|Hs].
  - intros [= <-]. split; [lia|]. by exists s.
  - destruct (label_index label l) as [j|]; simpl; [|done].
    intros [= <-]. destruct (IH j eq_refl) as [Hlt Hj]. split; [lia|done].
Qed.

(** X22.  An edit that [edit_suggestion] accepts neither loses nor adds a
    suggestion: the number of suggestions over all topics is unchanged,
    whether the suggestion is replaced in place or moved to the end of
    another topic, and the new suggestion is in the topic named in the
    form. *)
Theorem edit_suggestion_keeps_count (topic label : str)
    (form : SuggestionForm) sm (new_topic : str)
    (new_suggestion : Suggestion) :
  cleaned_form form = Some (new_topic, new_suggestion) →
  (edit_suggestion unquote true topic label form sm).2 = Accepted →
  let sm' := (edit_suggestion unquote true topic label form sm).1 in
  suggestion_count sm' = suggestion_count sm
  ∧ new_suggestion ∈ default [] (sm' !! new_topic).
Proof.
  intros Hform. unfold edit_suggestion. simpl. rewrite Hform.
  destruct (blank_field new_topic new_suggestion); [done|].
  destruct (sm !! topic) as [current|] eqn:Hcurrent; [|done].
  destruct (label_index (unquote label) current) as [i|] eqn:Hi; [|done].
  apply label_index_Some in Hi as [Hlt _].
  destruct (bool_decide_reflect (new_topic = topic)) as [->|Hne];
    intros _; simpl.
  - split.
    + pose proof (suggestion_count_insert sm topic
                    (<[i := new_suggestion]> current)) as Hcount.
      rewrite Hcurrent, length_insert in Hcount. simpl in Hcount. lia.
    + rewrite lookup_insert_eq. simpl.
      apply list_elem_of_lookup. exists i.
      by apply list_lookup_insert_eq.
  - split.
    + set (sm1 := <[topic := delete i current]> sm).
      pose proof (suggestion_count_insert sm topic (delete i current))
        as Hcount1.
      rewrite Hcurrent, length_delete in Hcount1
        by (by apply lookup_lt_is_Some_2).
      simpl in Hcount1. fold sm1 in Hcount1.
      pose proof (suggestion_count_insert (with_topic sm1 new_topic)
                    new_topic
                    (default [] (with_topic sm1 new_topic !! new_topic)
                     ++ [new_suggestion])) as Hcount2.
      rewrite length_app, suggestion_count_with_topic in Hcount2.
      simpl in Hcount2. lia.
    + rewrite lookup_insert_eq. simpl. apply elem_of_app. right.
      apply list_elem_of_here.
Qed.
End SuggestionCount.

(** ** Menu categories *)

Section CategoryFacts.
Context {U : UnicodeData}.
Implicit Types (custom flat : gmap str str).

Lemma SYSTEM_NAMES_keys k : is_Some (SYSTEM_NAMES !! k) ↔ k ∈ SYSTEM_CATEGORIES.
Proof.
  unfold SYSTEM_NAMES, SYSTEM_CATEGORIES.
  generalize (utf8 "attractions") (utf8 "events") (utf8 "services")
    (utf8 "info").
  intros a b c d. rewrite !lookup_insert_is_Some', lookup_empty.
  rewrite !elem_of_cons, elem_of_nil. split.
  - intros [<-|[<-|[<-|[<-|[? [=]]]]]]; auto.
  - intros [->|[->|[->|[->|[]]]]]; auto.
Qed.

Lemma filter_custom_union custom :
  custom_ok custom →
  filter (λ entry, entry.1 ∉ SYSTEM_CATEGORIES) (custom ∪ (SYSTEM_NAMES ∪ ∅))
  = custom.
Proof.
  intros Hc. apply map_eq. intros k. rewrite (right_id ∅ (∪)).
  destruct (custom !! k) as [v|] eqn:E.
  - apply map_lookup_filter_Some. split.
    + by apply lookup_union_Some_l.
    + simpl. by apply Hc.
  - apply map_lookup_filter_None.
    destruct (SYSTEM_NAMES !! k) as [n|] eqn:En.
    + right. intros x _ Hx. simpl in Hx. apply Hx, SYSTEM_NAMES_keys. eauto.
    + left. by apply lookup_union_None.
Qed.

Lemma custom_ok_filter flat :
  custom_ok (filter (λ entry, entry.1 ∉ SYSTEM_CATEGORIES) flat).
Proof.
  intros k [v Hv]. by apply map_lookup_filter_Some in Hv as [_ Hk].
Qed.

Lemma custom_ok_empty : custom_ok ∅.
Proof. intros k [v Hv]. by rewrite lookup_empty in Hv. Qed.

Lemma load_menu_categories_shape write_ok file :
  ∃ custom,
    (load_menu_categories write_ok file).1
    = {| system_categories := Some SYSTEM_NAMES;
         custom_categories := Some custom |}
    ∧ custom_ok custom.
Proof.
  destruct file as [| |flat]; simpl.
  - exists ∅. split; [done|apply custom_ok_empty].
  - exists ∅. split; [done|apply custom_ok_empty].
  - eexists. split; [done|apply custom_ok_filter].
Qed.

Lemma load_after_save write_ok custom file :
  custom_ok custom →
  load_menu_categories write_ok
    (save_menu_categories true
       {| system_categories := Some SYSTEM_NAMES;
          custom_categories := Some custom |} file)
  = ({| system_categories := Some SYSTEM_NAMES;
        custom_categories := Some custom |},
     FileContent (custom ∪ (SYSTEM_NAMES ∪ ∅))).
Proof.
  intros Hc. cbn [save_menu_categories system_categories custom_categories
                  load_menu_categories].
  by rewrite filter_custom_union.
Qed.

Lemma load_menu_categories_stable write_ok file :
  load_menu_categories write_ok (load_menu_categories write_ok file).2
  = ((load_menu_categories write_ok file).1,
     (load_menu_categories write_ok file).2).
Proof.
  destruct file as [| |flat]; [|done|done].
  destruct write_ok; [|done].
  cbn [load_menu_categories save_menu_categories system_categories
       custom_categories snd fst].
  by rewrite map_filter_empty.
Qed.

(** X23.  What [load_menu_categories] returns always has the four system
    categories and custom categories under other keys; saving such a value
    and loading again gives it back; loading twice gives the same as
    loading once.  On a missing file the first load writes an empty
    object, not the system categories it returns. *)
Theorem load_save_menu_categories (write_ok : bool) (file : categories_file) :
  categories_wf (load_menu_categories write_ok file).1
  ∧ (∀ c, categories_wf c →
          (load_menu_categories write_ok
             (save_menu_categories true c file)).1 = c)
  ∧ load_menu_categories write_ok (load_menu_categories write_ok file).2
    = load_menu_categories write_ok file
  ∧ load_menu_categories true FileAbsent
    = ({| system_categories := Some SYSTEM_NAMES;
          custom_categories := Some ∅ |}, FileContent ∅).
Proof.
  split; [|split; [|split]].
  - destruct (load_menu_categories_shape write_ok file) as (custom & -> & Hc).
    split; [done|]. by exists custom.
  - intros [system custom] [Hsys (custom' & Hcustom & Hc)].
    cbn [system_categories custom_categories] in Hsys, Hcustom.
    subst. by rewrite load_after_save.
  - rewrite load_menu_categories_stable.
    by destruct (load_menu_categories write_ok file).
  - done.
Qed.

(** X24.  A category that [add_menu_category] accepted has a key that
    the pattern of lower case Latin letters, digits and underscores
    matches, that is neither a system key nor an earlier custom key, and a
    name that is not empty; loading the file afterwards gives the earlier
    custom categories and the new one.  After a refusal the categories
    are as before.  When the file cannot be written the handler changes
    nothing, whatever it replies. *)
Theorem add_menu_category_effect (form_key form_name : option str)
    (file : categories_file) :
  let key := str_lower (str_strip (default [] form_key)) in
  let name := str_strip (default [] form_name) in
  let before :=
    default ∅ (custom_categories (load_menu_categories true file).1) in
  let result := add_menu_category true true form_key form_name file in
  match result.2 with
  | Accepted =>
      matches_slug key = true ∧ name ≠ [] ∧ (key ∉ SYSTEM_CATEGORIES)
      ∧ before !! key = None
      ∧ (load_menu_categories true (result.1)).1
        = {| system_categories := Some SYSTEM_NAMES;
             custom_categories := Some (<[key := name]> before) |}
  | _ =>
      (load_menu_categories true (result.1)).1
      = (load_menu_categories true file).1
  end
  ∧ (add_menu_category true false form_key form_name file).1 = file.
Proof.
  intros key name before result. split.
  - subst result. unfold add_menu_category. cbn [negb]. fold key name.
    destruct (is_empty key || is_empty name) eqn:Hempty; [done|].
    destruct (matches_slug key) eqn:Hslug; [|done]. cbn [negb].
    destruct (load_menu_categories_shape true file) as (custom & Hload & Hc).
    pose proof (load_menu_categories_stable true file) as Hstable.
    subst before.
    destruct (load_menu_categories true file) as [categories file2].
    cbn [fst snd] in Hload, Hstable. subst categories.
    cbn [fst snd default from_option id system_categories custom_categories].
    destruct (bool_decide_reflect (is_Some (SYSTEM_NAMES !! key)))
      as [Hsys|Hsys]; cbn [orb fst snd]; [by rewrite Hstable|].
    destruct (bool_decide_reflect (is_Some (custom !! key)))
      as [Hcus|Hcus]; cbn [orb fst snd]; [by rewrite Hstable|].
    assert (custom_ok (<[key := name]> custom)) as Hc'.
    { intros k [Hk|Hk]%lookup_insert_is_Some'; [|by apply Hc].
      subst k. by rewrite <- SYSTEM_NAMES_keys. }
    rewrite (load_after_save true _ file2 Hc'). cbn [fst].
    apply orb_false_iff in Hempty as [_ Hname].
    repeat split.
    + intros Heq. by rewrite Heq in Hname.
    + by rewrite <- SYSTEM_NAMES_keys.
    + by apply eq_None_not_Some.
  - unfold add_menu_category. cbn [negb].
    destruct (_ || _); [done|]. destruct (negb _); [done|].
    assert ((load_menu_categories false file).2 = file) as Hfile
      by by destruct file.
    destruct (load_menu_categories false file) as [categories file2].
    cbn [snd] in Hfile. subst file2.
    by destruct (_ || _).
Qed.

(** X25.  [delete_menu_category] refuses a system key before it reads the
    file.  It accepts exactly when the key is a custom category that no
    menu button uses; loading the file afterwards then gives the custom
    categories without that key, and after any refusal gives them as they
    were.  The system categories are there in every case. *)
Theorem delete_menu_category_effect (key : str)
    (menu_items : list MenuButton) (file : categories_file) :
  let before :=
    default ∅ (custom_categories (load_menu_categories true file).1) in
  let result := delete_menu_category true true key menu_items file in
  let after := (load_menu_categories true (result.1)).1 in
  (key ∈ SYSTEM_CATEGORIES → result = (file, Refused ERR_SYSTEM_CATEGORY))
  ∧ (result.2 = Accepted
     ↔ is_Some (before !! key) ∧ ∀ b, b ∈ menu_items → category b ≠ key)
  ∧ system_categories after = Some SYSTEM_NAMES
  ∧ custom_categories after
    = Some (match result.2 with
            | Accepted => delete key before
            | _ => before
            end).
Proof.
  intros before result after.
  destruct (load_menu_categories_shape true file) as (custom & Hload & Hc).
  pose proof (load_menu_categories_stable true file) as Hstable.
  assert (before = custom) as Hbefore by (subst before; by rewrite Hload).
  assert (system_categories after = Some SYSTEM_NAMES) as Hafter.
  { subst after.
    by destruct (load_menu_categories_shape true (result.1)) as (? & -> & _). }
  split; [|split; [|split; [done|]]].
  - intros Hsys. subst result. unfold delete_menu_category. cbn [negb].
    by rewrite bool_decide_eq_true_2.
  - subst result. unfold delete_menu_category. cbn [negb].
    destruct (bool_decide_reflect (key ∈ SYSTEM_CATEGORIES)) as [Hsys|Hsys].
    { cbn [snd]. split; [done|]. intros [Hkey _]. rewrite Hbefore in Hkey.
      by destruct (Hc key Hkey). }
    rewrite Hbefore.
    destruct (load_menu_categories true file) as [categories file2].
    cbn [fst] in Hload. subst categories.
    cbn [default from_option id custom_categories].
    destruct (bool_decide_reflect (is_Some (custom !! key))) as [Hkey|Hkey].
    + destruct (existsb _ menu_items) eqn:Hused; cbn [snd].
      * split; [done|]. intros [_ Hfree].
        apply existsb_exists in Hused as (b & Hb & Hcat).
        apply bool_decide_eq_true in Hcat.
        by destruct (Hfree b (proj2 (list_elem_of_In _ _) Hb)).
      * split; [|done]. intros _. split; [done|]. intros b Hb Hcat.
        apply existsb_false_Forall in Hused. rewrite Forall_forall in Hused.
        specialize (Hused b Hb). cbn beta in Hused.
        by apply bool_decide_eq_false in Hused.
    + cbn [snd]. split; [done|]. by intros [? _].
  - subst after result. unfold delete_menu_category. cbn [negb].
    rewrite Hbefore.
    destruct (bool_decide_reflect (key ∈ SYSTEM_CATEGORIES)) as [Hsys|Hsys].
    { cbn [fst snd]. by rewrite Hload. }
    destruct (load_menu_categories true file) as [categories file2].
    cbn [fst snd] in Hload, Hstable. subst categories.
    cbn [default from_option id custom_categories system_categories].
    destruct (bool_decide_reflect (is_Some (custom !! key))) as [Hkey|Hkey].
    + destruct (existsb _ menu_items); cbn [fst snd];
        [by rewrite Hstable|].
      assert (custom_ok (delete key custom)) as Hc'.
      { intros k [v [_ Hv]%lookup_delete_Some]. apply Hc. eauto. }
      by rewrite (load_after_save true _ file2 Hc').
    + cbn [fst snd]. by rewrite Hstable.
Qed.
End CategoryFacts.

(** ** The defaults of the loaders *)

Section CoverageFacts.
Context {U : UnicodeData}.
Context (menu_items : list MenuItem).
Context (suggestionMap : gmap str (list Suggestion)).
Context (KNOWLEDGE_BASE : knowledge).
Context (net : network).

Lemma find_menu_topic_elem_of items q topic :
  find_menu_topic items q = Some topic →
  ∃ item, item ∈ items ∧ suggestion_topic item = Some topic.
Proof.
  induction items as [|item rest IH]; simpl; [done|].
  case_bool_decide.
  - intros Htopic. exists item. split; [apply list_elem_of_here|done].
  - intros (item' & Hin & Htopic)%IH. exists item'.
    split; [by apply list_elem_of_further|done].
Qed.

Local Arguments utf8 : simpl never.
Local Arguments app : simpl never.

Lemma chat_suggestions_or_error (log : list LogEntry) (message : str) :
  topics_covered menu_items suggestionMap →
  let reply :=
    (chat menu_items suggestionMap KNOWLEDGE_BASE net log message).1 in
  source reply = SRC_ERROR ∨ suggestions reply ≠ [].
Proof.
  intros [Htopics Hdefault] reply. subst reply. unfold chat.
  destruct (str_strip message) as [|c q] eqn:Hq; [by left|].
  unfold chat_body.
  destruct (find_menu_topic menu_items (c :: q)) as [[|t topic]|] eqn:Hfind.
  - destruct (find_in_knowledge_base _ _) as [[|]|];
      [destruct (call_yandex_gpt _ _)| |destruct (call_yandex_gpt _ _)];
      simpl; first [by left|right; by intros ?%fmap_nil_inv].
  - apply find_menu_topic_elem_of in Hfind as (item & Hin & Htopic).
    pose proof (Htopics item (t :: topic) Hin Htopic ltac:(done)) as Hsome.
    destruct (find_suggestion_answer _ _) as [[|]|]; simpl;
      try (right; by intros ?%fmap_nil_inv);
      (destruct (find_in_knowledge_base _ _) as [[|]|];
       [destruct (call_yandex_gpt _ _)| |destruct (call_yandex_gpt _ _)]);
      simpl; first [by left|right; by intros ?%fmap_nil_inv].
  - destruct (find_in_knowledge_base _ _) as [[|]|];
      [destruct (call_yandex_gpt _ _)| |destruct (call_yandex_gpt _ _)];
      simpl; first [by left|right; by intros ?%fmap_nil_inv].
Qed.

(** X26.  When every topic that a menu button names has at least one
    suggestion, and the default topic has one, every reply of [/chat]
    that is not an error reply carries at least one suggestion. *)
Theorem chat_suggestions_covered (log : list LogEntry) (message : str) :
  topics_covered menu_items suggestionMap →
  let reply :=
    (chat menu_items suggestionMap KNOWLEDGE_BASE net log message).1 in
  source reply ≠ SRC_ERROR → suggestions reply ≠ [].
Proof.
  intros Hcovered reply Hsource.
  by destruct (chat_suggestions_or_error log message Hcovered).
Qed.
End CoverageFacts.

(** ** The theorems at work on the defaults of the application *)

Lemma DEFAULT_MENU_wf : menu_wf DEFAULT_MENU.
Proof. split; apply (bool_decide_unpack _); vm_compute; exact I. Qed.

Lemma labels_unique_topics_vr : labels_unique topics_vr.
Proof.
  intros topic l. unfold topics_vr. rewrite lookup_insert_Some.
  intros [[_ <-]|[_ [_ <-]%lookup_singleton_Some]];
    apply (bool_decide_unpack _); vm_compute; exact I.
Qed.

Lemma menu_operations_keep_unique_witness :
  menu_wf (add_menu_item true form_laser DEFAULT_MENU).1
  ∧ menu_wf (edit_menu_item true 1 form_laser DEFAULT_MENU).1
  ∧ menu_wf (delete_menu_item true 1 DEFAULT_MENU).1.
Proof.
  exact (menu_operations_keep_unique true 1 form_laser DEFAULT_MENU
           DEFAULT_MENU_wf).
Defined.

Lemma add_menu_item_resolved_witness :
  find_menu_topic
    (menu_item_of <$> (add_menu_item true form_laser DEFAULT_MENU).1)
    (utf8 "ЛАЗЕРТАГ!")
  = Some (utf8 "vr").
Proof.
  assert ((add_menu_item true form_laser DEFAULT_MENU).2 = Accepted) as Hacc
    by (vm_compute; reflexivity).
  pose proof (add_menu_item_resolved form_laser DEFAULT_MENU
                (utf8 "ЛАЗЕРТАГ!") Hacc) as Hresolved.
  cbv zeta in Hresolved. destruct Hresolved as (_ & _ & Hfind).
  apply Hfind.
  - vm_compute. reflexivity.
  - assert (Forall (λ b, normalize_text (Some (button_question b))
                         ≠ normalize_text (Some (utf8 "ЛАЗЕРТАГ!")))
              DEFAULT_MENU) as Hold
      by (apply (bool_decide_unpack _); vm_compute; exact I).
    intros b Hb. by apply (proj1 (Forall_forall _ _) Hold).
Defined.

Lemma suggestion_labels_stay_unique_witness :
  labels_unique (add_suggestion true form_hours topics_vr).1
  ∧ labels_unique
      (delete_suggestion (λ s, s) true (utf8 "vr") (utf8 "Игры") topics_vr).1.
Proof.
  exact (suggestion_labels_stay_unique (λ s, s) true form_hours (utf8 "vr")
           (utf8 "Игры") topics_vr labels_unique_topics_vr).
Defined.

Lemma add_suggestion_served_witness :
  get_suggestions_by_topic (add_suggestion true form_hours topics_vr).1
    (utf8 "vr")
  = [sug_games; sug_hours].
Proof.
  assert (cleaned_form form_hours = Some (utf8 "vr", sug_hours)) as Hform
    by (vm_compute; reflexivity).
  assert ((add_suggestion true form_hours topics_vr).2 = Accepted) as Hacc
    by (vm_compute; reflexivity).
  pose proof (add_suggestion_served form_hours topics_vr (utf8 "vr")
                sug_hours excerpt_ok Hform Hacc) as Hserved.
  cbv zeta in Hserved. destruct Hserved as (_ & Hget & _).
  rewrite Hget. vm_compute. reflexivity.
Defined.

Lemma edit_suggestion_keeps_count_witness :
  suggestion_count
    (edit_suggestion (λ s, s) true (utf8 "vr") (utf8 "Игры")
       form_hours_default topics_vr).1
  = suggestion_count topics_vr.
Proof.
  assert (cleaned_form form_hours_default = Some (utf8 "default", sug_hours))
    as Hform by (vm_compute; reflexivity).
  assert ((edit_suggestion (λ s, s) true (utf8 "vr") (utf8 "Игры")
             form_hours_default topics_vr).2 = Accepted) as Hacc
    by (vm_compute; reflexivity).
  pose proof (edit_suggestion_keeps_count (λ s, s) (utf8 "vr") (utf8 "Игры")
                form_hours_default topics_vr (utf8 "default") sug_hours
                Hform Hacc) as Hcount.
  cbv zeta in Hcount. by destruct Hcount as [Hcount _].
Defined.

Lemma add_menu_category_effect_witness :
  (add_menu_category true true (Some (utf8 " Party_2 "))
     (Some (utf8 "Праздники")) file_kids).2 = Accepted
  ∧ custom_categories
      (load_menu_categories true
         (add_menu_category true true (Some (utf8 " Party_2 "))
            (Some (utf8 "Праздники")) file_kids).1).1
    = Some (<[utf8 "party_2" := utf8 "Праздники"]>
            (<[utf8 "kids" := utf8 "Детям"]> ∅)).
Proof.
  assert ((add_menu_category true true (Some (utf8 " Party_2 "))
             (Some (utf8 "Праздники")) file_kids).2 = Accepted) as Hacc
    by (vm_compute; reflexivity).
  split; [done|].
  pose proof (add_menu_category_effect (Some (utf8 " Party_2 "))
                (Some (utf8 "Праздники")) file_kids) as [Hadd _].
  cbv zeta in Hadd. rewrite Hacc in Hadd.
  destruct Hadd as (_ & _ & _ & _ & ->). vm_compute. reflexivity.
Defined.

Lemma delete_menu_category_effect_witness :
  (delete_menu_category true true (utf8 "kids") DEFAULT_MENU file_kids).2
  = Accepted
  ∧ custom_categories
      (load_menu_categories true
         (delete_menu_category true true (utf8 "kids") DEFAULT_MENU
            file_kids).1).1
    = Some ∅.
Proof.
  assert ((delete_menu_category true true (utf8 "kids") DEFAULT_MENU
             file_kids).2 = Accepted) as Hacc by (vm_compute; reflexivity).
  split; [done|].
  pose proof (delete_menu_category_effect (utf8 "kids") DEFAULT_MENU
                file_kids) as Hdelete.
  cbv zeta in Hdelete. destruct Hdelete as (_ & _ & _ & ->).
  rewrite Hacc. vm_compute. reflexivity.
Defined.

Lemma chat_suggestions_covered_witness :
  load_menu true None NoFile
  = Some (DEFAULT_MENU, Some DEFAULT_MENU, FileWith DEFAULT_MENU)
  ∧ (load_suggestion_map true NoFile).1 = DEFAULT_SUGGESTIONS
  ∧ suggestions
      (chat (menu_item_of <$> DEFAULT_MENU) DEFAULT_SUGGESTIONS kb_greetings
         (net_answers (utf8 "Да")) [] (utf8 "Нерф?")).1
    ≠ [].
Proof.
  split; [done|]. split; [done|].
  apply (chat_suggestions_covered (menu_item_of <$> DEFAULT_MENU)
           DEFAULT_SUGGESTIONS kb_greetings (net_answers (utf8 "Да")) []
           (utf8 "Нерф?")).
  - split.
    + intros item topic (b & -> & Hb)%list_elem_of_fmap [= <-] _.
      assert (Forall (λ b, default [] (DEFAULT_SUGGESTIONS !! button_topic b)
                           ≠ []) DEFAULT_MENU) as Hall
        by (apply (bool_decide_unpack _); vm_compute; exact I).
      by apply (proj1 (Forall_forall _ _) Hall).
    + vm_compute. discriminate.
  - vm_compute. discriminate.
Defined.

(** ** Reading numbers aloud *)

From Stdlib Require DecimalPos.

Section SpeechFacts.

Lemma has_digit_app a b : has_digit (a ++ b) = has_digit a || has_digit b.
Proof. apply existsb_app. Qed.

Lemma str_of_N_has_digit n : has_digit (str_of_N n) = true.
Proof.
  unfold str_of_N.
  assert (∀ d, d ≠ Decimal.Nil → has_digit (uint_str d) = true) as Hd
    by (by intros []).
  apply Hd. destruct n; [done|]. apply DecimalPos.Unsigned.to_uint_nonnil.
Qed.

(** A check of the numbers below a bound, one by one. *)
Lemma below_cases (P : N → bool) (bound : nat) :
  forallb (λ i, P (N.of_nat i)) (seq 0 bound) = true →
  ∀ n, n < N.of_nat bound → P n = true.
Proof.
  intros Hall n Hn. rewrite forallb_forall in Hall.
  specialize (Hall (N.to_nat n)). rewrite N2Nat.id in Hall.
  apply Hall, in_seq. lia.
Qed.

Lemma table_get_above d bound key :
  forallb (λ e, e.1 <=? bound) d = true → bound < key →
  table_get d key = None.
Proof.
  intros Hd Hkey. induction d as [|[k v] d IH]; [done|].
  simpl in Hd. apply andb_true_iff in Hd as [Hk Hd]. simpl.
  apply N.leb_le in Hk.
  destruct (N.eqb_spec k key) as [->|_]; [lia|by apply IH].
Qed.

Lemma convert_day_to_text_digit day :
  has_digit (convert_day_to_text day) = negb (in_range 1 31 day).
Proof.
  destruct (N.ltb_spec day 32) as [Hlt|Hge].
  - apply Bool.eqb_prop. revert day Hlt.
    apply (below_cases
             (λ n, Bool.eqb (has_digit (convert_day_to_text n))
                     (negb (in_range 1 31 n))) 32).
    vm_compute. reflexivity.
  - unfold convert_day_to_text.
    rewrite (table_get_above days 31); [|vm_compute; reflexivity|lia].
    simpl. rewrite str_of_N_has_digit. unfold in_range.
    by rewrite (proj2 (N.leb_gt day 31)), andb_false_r by lia.
Qed.

Lemma convert_number_to_text_digit number :
  has_digit (convert_number_to_text number) = negb (in_range 1 20 number).
Proof.
  destruct (N.ltb_spec number 21) as [Hlt|Hge].
  - apply Bool.eqb_prop. revert number Hlt.
    apply (below_cases
             (λ n, Bool.eqb (has_digit (convert_number_to_text n))
                     (negb (in_range 1 20 n))) 21).
    vm_compute. reflexivity.
  - unfold convert_number_to_text.
    rewrite (table_get_above ordinal_numbers 20);
      [|vm_compute; reflexivity|lia].
    simpl. rewrite str_of_N_has_digit. unfold in_range.
    by rewrite (proj2 (N.leb_gt number 20)), andb_false_r by lia.
Qed.

Lemma month_text_digit month :
  has_digit (month_text month) = negb (in_range 1 12 month).
Proof.
  destruct (N.ltb_spec month 13) as [Hlt|Hge].
  - apply Bool.eqb_prop. revert month Hlt.
    apply (below_cases
             (λ n, Bool.eqb (has_digit (month_text n))
                     (negb (in_range 1 12 n))) 13).
    vm_compute. reflexivity.
  - unfold month_text, in_range.
    rewrite (proj2 (N.leb_gt month 12)), andb_false_r by lia.
    simpl. by rewrite str_of_N_has_digit.
Qed.

Lemma year_text_digit year :
  has_digit (year_text year) = negb (in_range 2000 2020 year).
Proof.
  unfold year_text, in_range.
  destruct (N.leb_spec 2000 year) as [Hge|Hlt];
    [|cbn [andb negb]; by rewrite str_of_N_has_digit].
  destruct (N.ltb_spec 2000 year) as [Hgt|Hle].
  - rewrite has_digit_app, convert_number_to_text_digit.
    replace (has_digit (utf8 "две тысячи ")) with false
      by (vm_compute; reflexivity).
    cbn [orb andb]. f_equal. unfold in_range.
    destruct (N.leb_spec year 2020), (N.leb_spec 1 (year - 2000)),
      (N.leb_spec (year - 2000) 20); cbn [andb]; (done || lia).
  - assert (year = 2000) as -> by lia. vm_compute. reflexivity.
Qed.

(** X27.  [replace_date] reads a date without leaving a digit exactly when
    the day is 1 to 31, the month 1 to 12 and the year 2000 to 2020; any
    other date, one of 2021 for instance, keeps digits in its reading. *)
Theorem replace_date_spelled (day month year : N) :
  has_digit (replace_date day month year)
  = negb (in_range 1 31 day && in_range 1 12 month
          && in_range 2000 2020 year).
Proof.
  unfold replace_date.
  rewrite !has_digit_app, convert_day_to_text_digit, month_text_digit,
    year_text_digit.
  replace (has_digit (utf8 " года")) with false by (vm_compute; reflexivity).
  replace (has_digit [SPACE]) with false by (vm_compute; reflexivity).
  by destruct (in_range 1 31 day), (in_range 1 12 month),
    (in_range 2000 2020 year).
Qed.

Lemma convert_single_digit_spelled digit :
  digit < 10 → has_digit (convert_single_digit digit) = false.
Proof.
  intros Hlt. apply negb_true_iff. revert digit Hlt.
  apply (below_cases (λ n, negb (has_digit (convert_single_digit n))) 10).
  vm_compute. reflexivity.
Qed.

Lemma convert_two_digit_number_spelled number :
  number < 100 → has_digit (convert_two_digit_number number) = false.
Proof.
  intros Hlt. apply negb_true_iff. revert number Hlt.
  apply (below_cases (λ n, negb (has_digit (convert_two_digit_number n)))
           100).
  vm_compute. reflexivity.
Qed.

Lemma has_digit_join sep parts :
  has_digit sep = false → Forall (λ part, has_digit part = false) parts →
  has_digit (str_join sep parts) = false.
Proof.
  intros Hsep. induction 1 as [|part rest Hpart Hrest IH]; [done|].
  destruct rest as [|next rest]; [done|].
  change (str_join sep (part :: next :: rest))
    with (part ++ sep ++ str_join sep (next :: rest)).
  by rewrite !has_digit_app, Hpart, Hsep, IH.
Qed.

Lemma digit_value c : ascii_digit c = true → c - 0x30 < 10.
Proof.
  unfold ascii_digit, in_range. intros [Hlo Hhi]%andb_true_iff.
  apply N.leb_le in Hlo, Hhi. lia.
Qed.

Lemma phone_group_spelled num :
  Forall (λ c, ascii_digit c = true) num → has_digit (phone_group num) = false.
Proof.
  intros Hnum. unfold phone_group.
  case_bool_decide; [vm_compute; reflexivity|].
  destruct num as [|c1 [|c2 [|c3 rest]]].
  - done.
  - apply Forall_cons in Hnum as [H1 _].
    apply convert_single_digit_spelled. cbn. by apply digit_value.
  - apply Forall_cons in Hnum as [H1 [H2 _]%Forall_cons].
    apply convert_two_digit_number_spelled. cbn.
    apply digit_value in H1, H2. lia.
  - change (length (c1 :: c2 :: c3 :: rest) =? 1)%nat with false.
    change (length (c1 :: c2 :: c3 :: rest) =? 2)%nat with false.
    apply has_digit_join; [done|]. apply Forall_fmap.
    eapply Forall_impl; [exact Hnum|]. intros c Hc. simpl.
    apply convert_single_digit_spelled. cbn. by apply digit_value.
Qed.

(** X28.  [replace_phone_numbers] leaves no digit of a telephone number:
    whatever runs of the digits 0 to 9 the number is made of, each run of
    one or two digits is read as a number and each longer run digit by
    digit. *)
Theorem replace_phone_numbers_spelled (numbers : list str) :
  Forall (Forall (λ c, ascii_digit c = true)) numbers →
  has_digit (replace_phone_numbers numbers) = false.
Proof.
  intros Hnumbers. unfold replace_phone_numbers.
  apply has_digit_join; [done|]. apply Forall_fmap.
  eapply Forall_impl; [exact Hnumbers|]. intros num Hnum. simpl.
  by apply phone_group_spelled.
Qed.
End SpeechFacts.

Lemma replace_phone_numbers_spelled_witness :
  has_digit (replace_phone_numbers phone_runs) = false
  ∧ replace_phone_numbers phone_runs
    = utf8 "четыре девять пять один два три сорок пять шестьдесят семь".
Proof.
  split; [|vm_compute; reflexivity].
  apply (replace_phone_numbers_spelled phone_runs).
  apply (bool_decide_unpack _). vm_compute. exact I.
Defined.
